(** * NormyFormy: the module compressor and the importance ranker

    A shallow embedding of [normyformy/python_module_compressor.py].

    - [Ast]: the part of Python's [ast] trees the compressor looks at, and the
      compressor itself ([_remove_module_docstring], [_filter_imports],
      [_has_docstring], [_append_placeholder], [_count_total_lines],
      [_compress_function], [_compress_class], [_walk_and_compress],
      [compress_python_module]).
    - [Ranker]: [pathlib] paths, [FileLoaded] objects in a store of mutable
      objects, [determine_importance] and
      [FileCompressor.create_file_loaded_objects]. *)

From Stdlib Require Import ZArith Ascii String DecimalString Sorted.
From stdpp Require Import base option list strings gmap.

#[local] Set Warnings "-register-all".
Local Open Scope Z_scope.

(** Python's [str(n)] / [f"{n}"] for an [int]. *)
Definition str_of_int (n : Z) : string := NilZero.string_of_int (Z.to_int n).

(** The line feed. *)
Definition newline : string := String "010"%char EmptyString.

Module Ast.

(** ** Trees *)

(** [lineno] and [end_lineno] as [getattr] with a default finds them: [None]
    is an attribute that is not there.  The parser sets both on every
    statement.  A node built by [ast.Expr(...)] has no [lineno], and its
    [end_lineno] holds Python's [None], with which [_count_total_lines]
    cannot count ([TypeError]); [no_span] marks such a node.  The compressor
    never counts one: it counts the bodies the parser gave. *)
Record span := Span { lineno : option Z; end_lineno : option Z }.

Definition no_span : span := Span None None.
Definition lines (a b : Z) : span := Span (Some a) (Some b).

(** The [value] of an [ast.Constant]: a [str], or anything else ([bytes],
    numbers, [None], ...), kept as its source text. *)
Inductive constant :=
| Str (s : string)
| NonStr (repr : string).

(** Expressions hold no statement, hence no class or function definition;
    only [ast.Constant] is told apart. *)
Inductive expr :=
| Constant (value : constant)
| OtherExpr (src : string).

(** Statements.  [Compound] stands for every statement that owns statement
    lists other than a definition ([If], [For], [While], [With], [Try] with its
    handlers, [Match] with its cases): [blocks] are those lists in field order.
    [Simple] stands for the remaining statements ([Pass], [Return],
    [AugAssign], ...). *)
Inductive stmt :=
| FunctionDef (name args : string) (body : list stmt) (at_ : span)
| AsyncFunctionDef (name args : string) (body : list stmt) (at_ : span)
| ClassDef (name bases : string) (body : list stmt) (at_ : span)
| Import (names : string) (at_ : span)
| ImportFrom (module_ names : string) (at_ : span)
| Assign (src : string) (at_ : span)
| AnnAssign (src : string) (at_ : span)
| Expr (value : expr) (at_ : span)
| Compound (kind header : string) (blocks : list (list stmt)) (at_ : span)
| Simple (src : string) (at_ : span).

(** [ast.Module]. *)
Record ast_Module := Module_ { mod_body : list stmt }.

Definition stmt_span (s : stmt) : span :=
  match s with
  | FunctionDef _ _ _ p | AsyncFunctionDef _ _ _ p | ClassDef _ _ _ p
  | Import _ p | ImportFrom _ _ p | Assign _ p | AnnAssign _ p | Expr _ p
  | Compound _ _ _ p | Simple _ p => p
  end.

(** ** The compressor *)

(** [isinstance(s, ast.Expr) and isinstance(s.value, ast.Constant) and
    isinstance(s.value.value, str)]. *)
Definition is_str_expr (s : stmt) : bool :=
  match s with
  | Expr (Constant (Str _)) _ => true
  | _ => false
  end.

Definition _remove_module_docstring (tree : ast_Module) : ast_Module :=
  match mod_body tree with
  | [] => tree
  | first_stmt :: rest =>
      if is_str_expr first_stmt then Module_ rest else tree
  end.

Definition is_import (node : stmt) : bool :=
  match node with
  | Import _ _ | ImportFrom _ _ _ => true
  | _ => false
  end.

Definition _filter_imports (tree : ast_Module) : ast_Module :=
  Module_ (List.filter (fun node => negb (is_import node)) (mod_body tree)).

(** [_has_docstring(node)], on [node.body]. *)
Definition _has_docstring (body : list stmt) : bool :=
  match body with
  | [] => false
  | first_stmt :: _ => is_str_expr first_stmt
  end.

(** One round of the loop of [_count_total_lines], on a statement as the
    parser places it; [default] is the default [getattr] is given, for an
    attribute that is not there. *)
Definition stmt_lines (s : stmt) : Z :=
  let start := default 1 (lineno (stmt_span s)) in
  let end_ := default start (end_lineno (stmt_span s)) in
  end_ - start + 1.

Definition _count_total_lines (stmts : list stmt) : Z :=
  foldl (fun total s => total + stmt_lines s) 0 stmts.

Definition placeholder_msg (original_body : list stmt)
    (include_line_count : bool) : string :=
  if include_line_count
  then "<Content purposely removed: "
         +:+ str_of_int (_count_total_lines original_body) +:+ " lines>"
  else "<Content purposely removed>".

(** [ast.Expr(value=ast.Constant(value=msg, kind=None))]. *)
Definition Placeholder (msg : string) : stmt :=
  Expr (Constant (Str msg)) no_span.

(** [new_body.append(...)] on the list under construction. *)
Definition _append_placeholder (new_body original_body : list stmt)
    (include_line_count : bool) : list stmt :=
  new_body ++ [Placeholder (placeholder_msg original_body include_line_count)].

(** [_compress_function(node, ...)]: the value assigned to [node.body], from
    the [node.body] it finds. *)
Definition _compress_function (original_body : list stmt)
    (keep_docstrings include_line_count : bool) : list stmt :=
  let new_body :=
    if keep_docstrings && _has_docstring original_body
    then take 1 original_body
    else [] in
  _append_placeholder new_body original_body include_line_count.

Definition is_attribute (s : stmt) : bool :=
  match s with
  | Assign _ _ | AnnAssign _ _ => true
  | _ => false
  end.

(** [_compress_class(node, ...)]: the value assigned to [node.body]. *)
Definition _compress_class (original_body : list stmt)
    (keep_docstrings keep_class_attributes include_line_count : bool)
    : list stmt :=
  let '(new_body, start_idx) :=
    if keep_docstrings && _has_docstring original_body
    then (take 1 original_body, 1%nat)
    else ([], 0%nat) in
  let new_body :=
    if keep_class_attributes
    then new_body ++ List.filter is_attribute (drop start_idx original_body)
    else new_body in
  _append_placeholder new_body original_body include_line_count.

(** [_walk_and_compress].  [ast.walk] is breadth first and puts the
    children of a node in its queue before it yields the node: it yields
    every node of the tree as parsed, parents before children, each once,
    and a definition has its [body] replaced when it is yielded, from the
    [body] the parser gave it.  The statements that stay in a replaced body
    are a docstring and assignments, which own no statement list; the other
    nodes of the old body are still yielded, and rewritten if they are
    definitions, but nothing in the tree refers to them any more.  So the
    tree the loop leaves is this top-down rewriting, which goes through the
    statement lists of compound statements and stops at definitions. *)
Fixpoint walk_stmt (keep_docstrings keep_class_attributes
    include_line_count : bool) (node : stmt) : stmt :=
  match node with
  | FunctionDef name args body p =>
      FunctionDef name args
        (_compress_function body keep_docstrings include_line_count) p
  | AsyncFunctionDef name args body p =>
      AsyncFunctionDef name args
        (_compress_function body keep_docstrings include_line_count) p
  | ClassDef name bases body p =>
      ClassDef name bases
        (_compress_class body keep_docstrings keep_class_attributes
           include_line_count) p
  | Compound kind header blocks p =>
      Compound kind header
        (List.map
           (List.map
              (walk_stmt keep_docstrings keep_class_attributes
                 include_line_count))
           blocks) p
  | _ => node
  end.

Definition _walk_and_compress (tree : ast_Module)
    (keep_docstrings keep_class_attributes include_line_count : bool)
    : ast_Module :=
  Module_
    (List.map
       (walk_stmt keep_docstrings keep_class_attributes include_line_count)
       (mod_body tree)).

(** [compress_python_module] between [ast.parse] and [ast.unparse]. *)
Definition compress_tree (tree : ast_Module)
    (keep_docstrings keep_imports include_line_count
       keep_class_attributes : bool) : ast_Module :=
  let tree := if negb keep_imports then _filter_imports tree else tree in
  let tree :=
    if negb keep_docstrings then _remove_module_docstring tree else tree in
  _walk_and_compress tree keep_docstrings keep_class_attributes
    include_line_count.

(** ** What the statements are about *)

(** The bodies of the class and function nodes of a tree: the nodes
    [ast.walk] reaches from it. *)
Fixpoint def_bodies (node : stmt) : list (list stmt) :=
  match node with
  | FunctionDef _ _ body _ | AsyncFunctionDef _ _ body _
  | ClassDef _ _ body _ => body :: flat_map def_bodies body
  | Compound _ _ blocks _ => flat_map (flat_map def_bodies) blocks
  | _ => []
  end.

Definition module_def_bodies (tree : ast_Module) : list (list stmt) :=
  flat_map def_bodies (mod_body tree).

(** A tree without its line numbers: what [ast.unparse] prints of it.  Two
    trees of one text differ in nothing else. *)
Fixpoint erase_stmt (node : stmt) : stmt :=
  match node with
  | FunctionDef name args body _ =>
      FunctionDef name args (List.map erase_stmt body) no_span
  | AsyncFunctionDef name args body _ =>
      AsyncFunctionDef name args (List.map erase_stmt body) no_span
  | ClassDef name bases body _ =>
      ClassDef name bases (List.map erase_stmt body) no_span
  | Import names _ => Import names no_span
  | ImportFrom module_ names _ => ImportFrom module_ names no_span
  | Assign src _ => Assign src no_span
  | AnnAssign src _ => AnnAssign src no_span
  | Expr value _ => Expr value no_span
  | Compound kind header blocks _ =>
      Compound kind header (List.map (List.map erase_stmt) blocks) no_span
  | Simple src _ => Simple src no_span
  end.

Definition erase (tree : ast_Module) : ast_Module :=
  Module_ (List.map erase_stmt (mod_body tree)).

(** Two trees with the same text. *)
Definition same_text (t t' : ast_Module) : Prop := erase t = erase t'.

(** A compressed tree on which a second run has nothing to take for a
    docstring that is not one: with [keep_docstrings], no class or function
    body is the placeholder alone; without, the module does not begin with
    a string statement. *)
Definition settled (keep_docstrings : bool) (compressed : ast_Module)
    : bool :=
  if keep_docstrings
  then forallb (λ body, negb (length body =? 1)%nat)
         (module_def_bodies compressed)
  else negb (_has_docstring (mod_body compressed)).

(** The two texts of a placeholder. *)
Definition placeholder_text (msg : string) : Prop :=
  msg = "<Content purposely removed>"
  ∨ ∃ n : Z, msg = "<Content purposely removed: " +:+ str_of_int n +:+ " lines>".

(** The body of a compressed class or function: at most one leading
    docstring, then kept assignments, then the placeholder, last. *)
Definition compressed_body (body : list stmt) : Prop :=
  ∃ doc attrs msg,
    body = doc ++ attrs ++ [Placeholder msg]
    ∧ placeholder_text msg
    ∧ (length doc ≤ 1)%nat
    ∧ Forall (λ s, is_str_expr s = true) doc
    ∧ Forall (λ s, is_attribute s = true) attrs.

(** ** Example trees *)

(** The class of the specification's example: two attributes and a method,
    on lines 2 to 11 of its file. *)
Definition example_class_body : list stmt :=
  [ Assign "a = 1" (lines 2 2);
    Assign "b = 2" (lines 3 3);
    FunctionDef "method" "self"
      [ Expr (Constant (Str "Add them.")) (lines 5 5);
        Assign "x = self.a + self.b" (lines 6 6);
        Compound "if" "x > 2" [[Simple "return x" (lines 8 8)];
                                [Simple "x = 0" (lines 10 10)]]
          (lines 7 10);
        Simple "return x" (lines 11 11) ]
      (lines 4 11) ].

(** A module whose second statement is a string, after an import. *)
Definition late_string : stmt :=
  Expr (Constant (Str "not a docstring")) (lines 2 2).

Definition late_string_module : ast_Module :=
  Module_ [ Import "os" (lines 1 1); late_string; Assign "x = 1" (lines 3 3) ].

(** A function without a docstring. *)
Definition bare_function_module : ast_Module :=
  Module_ [ FunctionDef "f" "" [ Simple "return 1" (lines 2 2) ] (lines 1 2) ].

(** A class with a docstring and a function with one, and the tree of the
    same module once compressed and parsed again. *)
Definition documented_module : ast_Module :=
  Module_
    [ Import "os" (lines 1 1);
      ClassDef "C" ""
        [ Expr (Constant (Str "A class.")) (lines 3 3);
          Assign "a = 1" (lines 4 4);
          FunctionDef "m" "self" [ Simple "return self.a" (lines 6 6) ]
            (lines 5 6) ]
        (lines 2 6);
      FunctionDef "f" ""
        [ Expr (Constant (Str "A function.")) (lines 8 8);
          Simple "return 1" (lines 9 9) ]
        (lines 7 9) ].

Definition documented_module_reparsed : ast_Module :=
  Module_
    [ Import "os" (lines 1 1);
      ClassDef "C" ""
        [ Expr (Constant (Str "A class.")) (lines 3 3);
          Assign "a = 1" (lines 4 4);
          Expr (Constant (Str "<Content purposely removed>")) (lines 5 5) ]
        (lines 2 5);
      FunctionDef "f" ""
        [ Expr (Constant (Str "A function.")) (lines 7 7);
          Expr (Constant (Str "<Content purposely removed>")) (lines 8 8) ]
        (lines 6 8) ].

(** ** What a compressed module keeps *)

(** The declarations outside any other declaration: those of the module
    body and of the statement lists of compound statements. *)
Fixpoint outer_defs (node : stmt) : list stmt :=
  match node with
  | FunctionDef _ _ _ _ | AsyncFunctionDef _ _ _ _ | ClassDef _ _ _ _ =>
      [node]
  | Compound _ _ blocks _ => flat_map (flat_map outer_defs) blocks
  | _ => []
  end.

Inductive def_kind := KFunction | KAsyncFunction | KClass.

(** What a declaration is without its body: its kind, its name, its
    arguments or bases, its lines. *)
Definition def_header (node : stmt)
    : option (def_kind * string * string * span) :=
  match node with
  | FunctionDef name args _ p => Some (KFunction, name, args, p)
  | AsyncFunctionDef name args _ p => Some (KAsyncFunction, name, args, p)
  | ClassDef name bases _ p => Some (KClass, name, bases, p)
  | _ => None
  end.

(** The [body] of a class or function node. *)
Definition def_body (node : stmt) : list stmt :=
  match node with
  | FunctionDef _ _ body _ | AsyncFunctionDef _ _ body _
  | ClassDef _ _ body _ => body
  | _ => []
  end.

(** [compressed] is what is left of the body [original] of a class or
    function: statements of [original] in their order (its first statement
    at most, a string, then assignments that came after it) and one
    statement more, the placeholder, last. *)
Definition compressed_from (original compressed : list stmt) : Prop :=
  ∃ doc attrs msg,
    compressed = doc ++ attrs ++ [Placeholder msg]
    ∧ placeholder_text msg
    ∧ (length doc ≤ 1)%nat
    ∧ doc `prefix_of` original
    ∧ Forall (λ s, is_str_expr s = true) doc
    ∧ attrs `sublist_of` drop (length doc) original
    ∧ Forall (λ s, is_attribute s = true) attrs.

(** The import statements outside any declaration: those of the module body
    and of the statement lists of compound statements. *)
Fixpoint imports_under (node : stmt) : list stmt :=
  match node with
  | Import _ _ | ImportFrom _ _ _ => [node]
  | Compound _ _ blocks _ => flat_map (flat_map imports_under) blocks
  | _ => []
  end.

(** Statements that are neither imports, nor strings, nor declarations, nor
    compound. *)
Definition is_plain (node : stmt) : bool :=
  match node with
  | Assign _ _ | AnnAssign _ _ | Simple _ _ => true
  | Expr (Constant (Str _)) _ => false
  | Expr _ _ => true
  | _ => false
  end.

(** The module body after [_filter_imports], when it runs, and after
    [_remove_module_docstring], when it runs. *)
Definition without_imports (keep_imports : bool) (body : list stmt)
    : list stmt :=
  if keep_imports then body
  else List.filter (fun node => negb (is_import node)) body.

Definition without_docstring (keep_docstrings : bool) (body : list stmt)
    : list stmt :=
  if keep_docstrings then body
  else if _has_docstring body then drop 1 body else body.


(** ** The text interface

    [ast.parse] and [ast.unparse] belong to Python, not to this repository:
    they are parameters.  [ast.parse] returns a tree or raises, and so does
    [ast.unparse] with a text; [print] writes to standard output.  A
    computation takes what standard output holds and gives an outcome and
    what standard output holds afterwards. *)

Inductive outcome (E A : Type) :=
| Returned (a : A)
| Raised (e : E).
Arguments Returned {E A} a.
Arguments Raised {E A} e.

Definition py (E A : Type) : Type := list string → outcome E A * list string.

#[global] Instance py_ret {E} : MRet (py E) := λ A a out, (Returned a, out).

#[global] Instance py_bind {E} : MBind (py E) := λ A B k c out,
  match c out with
  | (Returned a, out') => k a out'
  | (Raised e, out') => (Raised e, out')
  end.

Definition raise {E A} (e : E) : py E A := λ out, (Raised e, out).

(** [print(s)]: one write of [s] and a newline. *)
Definition print {E} (s : string) : py E () :=
  λ out, (Returned (), out ++ [s +:+ newline]).

(** What a call of [compress_python_module] can raise.  It calls
    [ast.parse] and [ast.unparse], which both raise, and it catches
    nothing: the exception of either call reaches the caller. *)
Inductive raised (ParseError UnparseError : Type) :=
| ByParse (e : ParseError)
| ByUnparse (e : UnparseError).
Arguments ByParse {ParseError UnparseError} e.
Arguments ByUnparse {ParseError UnparseError} e.

Section Text.

(** What [ast.parse] raises on a text it does not take: [SyntaxError]
    values (and, on some texts, [ValueError], [RecursionError] or
    [MemoryError]). *)
Variable ParseError : Type.
(** What [ast.unparse] raises on a tree: [RecursionError] on an expression
    nested too deep for it, [ValueError] on an integer of more digits than
    [str] converts. *)
Variable UnparseError : Type.
Variable ast_parse : string → ParseError + ast_Module.
Variable ast_unparse : ast_Module → UnparseError + string.

Definition parse (python_module : string)
    : py (raised ParseError UnparseError) ast_Module :=
  match ast_parse python_module with
  | inl e => raise (ByParse e)
  | inr tree => mret tree
  end.

Definition unparse (tree : ast_Module)
    : py (raised ParseError UnparseError) string :=
  match ast_unparse tree with
  | inl e => raise (ByUnparse e)
  | inr unparsed => mret unparsed
  end.

Definition compress_python_module (python_module : string)
    (keep_docstrings keep_imports include_line_count
       keep_class_attributes : bool)
    : py (raised ParseError UnparseError) string :=
  tree ← parse python_module;
  let tree :=
    compress_tree tree keep_docstrings keep_imports include_line_count
      keep_class_attributes in
  unparsed ← unparse tree;
  print unparsed;;
  mret unparsed.

End Text.

End Ast.

Module Ranker.

(** ** [pathlib] paths *)

(** A pure path: [anchor] is drive and root together ([""] for a relative
    path), [tail] the segments after it. *)
Record Path := MkPath { anchor : string; tail : list string }.

(** [Path.parts]. *)
Definition parts (p : Path) : list string :=
  if decide (anchor p = "") then tail p else anchor p :: tail p.

(** [Path.name]: the last segment, [""] when there is none. *)
Definition path_name (p : Path) : string := default "" (last (tail p)).

(** [a / b]: an anchored right operand replaces the left one. *)
Definition truediv (a b : Path) : Path :=
  if decide (anchor b = "") then MkPath (anchor a) (tail a ++ tail b) else b.

(** [s.rfind(c)]; [None] for [-1]. *)
Fixpoint rfind (c : ascii) (s : string) : option nat :=
  match s with
  | EmptyString => None
  | String a s' =>
      match rfind c s' with
      | Some i => Some (S i)
      | None => if decide (a = c) then Some 0%nat else None
      end
  end.

(** [Path.suffix], from the name. *)
Definition suffix (name : string) : string :=
  match rfind "."%char name with
  | Some i =>
      if decide (0 < i ∧ i < String.length name - 1)%nat
      then String.substring i (String.length name - i) name
      else ""
  | None => ""
  end.

(** [path.with_suffix("")]; [None] is the [ValueError] raised for a path
    with an empty name. *)
Definition with_suffix_empty (p : Path) : option Path :=
  let name := path_name p in
  if decide (name = "") then None
  else
    let old_suffix := suffix name in
    let name :=
      if decide (old_suffix = "") then name
      else String.substring 0 (String.length name - String.length old_suffix)
             name in
    Some (MkPath (anchor p) (removelast (tail p) ++ [name])).

(** [path_to_module_str]; [None] when a call in it raises. *)
Definition path_to_module_str (path : Path) : option string :=
  p ← with_suffix_empty path;
  let parts_ := parts p in
  last_part ← last parts_;
  let parts_ :=
    if decide (last_part = "__init__") then removelast parts_ else parts_ in
  Some (String.concat "." parts_).

(** ** [FileLoaded] *)

Record FileLoaded := MkFileLoaded {
  name : string;
  path : Path;
  content : string;
  importance : Z;
  imports : gset string;
  imported_in : gset string;
}.

Definition depth (self : FileLoaded) : Z :=
  Z.of_nat (length (parts (path self))).

Definition content_length (self : FileLoaded) : Z :=
  Z.of_nat (String.length (content self)).

(** [s.count("\n")]. *)
Fixpoint count_newlines (s : string) : Z :=
  match s with
  | EmptyString => 0
  | String a s' =>
      (if decide (a = "010"%char) then 1 else 0) + count_newlines s'
  end.

Definition line_count (self : FileLoaded) : Z :=
  count_newlines (content self) + 1.

(** [file.importance = v]. *)
Definition with_importance (file : FileLoaded) (v : Z) : FileLoaded :=
  MkFileLoaded (name file) (path file) (content file) v (imports file)
    (imported_in file).

Definition important_file_names : gset string :=
  {[ "main.py"; "app.py"; "__main__.py"; "core.py" ]}.

Definition calculate_importance_feature (file : FileLoaded) : Z :=
  if decide (content_length file = 0) then 0
  else
    let importance := 10 in
    let importance :=
      if decide (path_name (path file) ∈ important_file_names)
      then importance + 1000 else importance in
    let importance := importance + Z.max 0 (60 - depth file * 10) in
    let importance := importance + Z.of_nat (size (imports file)) * 10 in
    let importance := importance + Z.of_nat (size (imported_in file)) * 5 in
    let importance := importance - line_count file `div` 50 in
    importance.

(** ** The store

    [FileLoaded] objects and [list] objects are mutable and named by
    reference: a reference is an index into the store, two equal references
    name one object.  A reference past the end names no object; no state of
    the program holds one, and an assignment through it changes nothing. *)

Record store := MkStore {
  files : list FileLoaded;
  lists : list (list nat);
}.

(** [file.importance = calculate_importance_feature(file)], [file] a
    reference. *)
Definition assign_importance (σ : store) (file : nat) : store :=
  MkStore
    (alter (λ f, with_importance f (calculate_importance_feature f)) file
       (files σ))
    (lists σ).

(** [determine_importance(files_loaded)]: the store it leaves and the
    reference it returns. *)
Definition determine_importance (σ : store) (files_loaded : nat)
    : store * nat :=
  (foldl assign_importance σ (default [] (lists σ !! files_loaded)),
   files_loaded).

(** ** [FileCompressor] *)

(** What the ranker asks of [grimp.ImportGraph].  Both methods raise
    [ModuleNotPresent] for a module that is not in the graph: [None]. *)
Record ImportGraph := MkImportGraph {
  find_modules_directly_imported_by : string → option (gset string);
  find_modules_that_directly_import : string → option (gset string);
}.

(** [self]: [file_contents] is a [dict], read in insertion order. *)
Record FileCompressor := MkFileCompressor {
  _file_contents : list (Path * string);
  _import_graph : ImportGraph;
  _base_module : Path;
}.

(** Allocation of a new object gives the first unused reference. *)
Definition new_file (σ : store) (f : FileLoaded) : store * nat :=
  (MkStore (files σ ++ [f]) (lists σ), length (files σ)).

Definition new_list (σ : store) (l : list nat) : store * nat :=
  (MkStore (files σ) (lists σ ++ [l]), length (lists σ)).

(** [lst.append(x)]. *)
Definition list_append (σ : store) (lst x : nat) : store :=
  MkStore (files σ) (alter (λ l, l ++ [x]) lst (lists σ)).

(** [list.sort(key=..., reverse=True)] is stable: elements with equal keys
    keep their order.  It is modelled by insertion from the right, each
    element going in front of the first one whose key is not greater. *)
Fixpoint insert_desc {A} (key : A → Z) (x : A) (l : list A) : list A :=
  match l with
  | [] => [x]
  | y :: l' =>
      if decide (key x < key y) then y :: insert_desc key x l' else x :: l
  end.

Definition sort_reverse {A} (key : A → Z) (l : list A) : list A :=
  foldr (insert_desc key) [] l.

(** [lambda file: file.importance], [file] a reference. *)
Definition importance_of (σ : store) (file : nat) : Z :=
  from_option importance 0 (files σ !! file).

(** [files_loaded.sort(key=lambda file: file.importance, reverse=True)]. *)
Definition list_sort_by_importance (σ : store) (lst : nat) : store :=
  MkStore (files σ) (alter (sort_reverse (importance_of σ)) lst (lists σ)).

(** The loop of [create_file_loaded_objects]; [None] when
    [path_to_module_str] raises or a method of the graph does: nothing is
    caught. *)
Fixpoint load_files (self : FileCompressor) (σ : store) (files_loaded : nat)
    (items : list (Path * string)) : option store :=
  match items with
  | [] => Some σ
  | (file_path, content) :: items =>
      module_str ← path_to_module_str (truediv (_base_module self) file_path);
      imports ←
        find_modules_directly_imported_by (_import_graph self) module_str;
      imported_in ←
        find_modules_that_directly_import (_import_graph self) module_str;
      let '(σ, file_loaded) :=
        new_file σ
          (MkFileLoaded module_str file_path content (-1) imports
             imported_in) in
      let σ := list_append σ files_loaded file_loaded in
      load_files self σ files_loaded items
  end.

Definition create_file_loaded_objects (self : FileCompressor) (σ : store)
    : option (store * nat) :=
  let '(σ, files_loaded) := new_list σ [] in
  σ ← load_files self σ files_loaded (_file_contents self);
  let '(σ, _) := determine_importance σ files_loaded in
  let σ := list_sort_by_importance σ files_loaded in
  Some (σ, files_loaded).

(** The records a list object holds, in order. *)
Definition records (σ : store) (lst : nat) : list FileLoaded :=
  omap (λ file, files σ !! file) (default [] (lists σ !! lst)).


(** ** What the statements are about *)

(** [file.imported_in = s]. *)
Definition with_imported_in (file : FileLoaded) (s : gset string)
    : FileLoaded :=
  MkFileLoaded (name file) (path file) (content file) (importance file)
    (imports file) s.

(** The score as the specification words it: the bonus goes to a leaf name
    among [main], [app], [__main__], [core]. *)
Definition specified_entry_points : gset string :=
  {[ "main"; "app"; "__main__"; "core" ]}.

Definition specified_importance (file : FileLoaded) : Z :=
  if decide (content file = "") then 0
  else
    10
    + (if decide (path_name (path file) ∈ specified_entry_points)
       then 1000 else 0)
    + Z.max 0 (60 - 10 * depth file)
    + 10 * Z.of_nat (size (imports file))
    + 5 * Z.of_nat (size (imported_in file))
    - line_count file `div` 50.

(** Two states of one object that differ in [importance] at most. *)
Definition same_but_importance (f f' : FileLoaded) : Prop :=
  name f' = name f ∧ path f' = path f ∧ content f' = content f
  ∧ imports f' = imports f ∧ imported_in f' = imported_in f.

(** The record [create_file_loaded_objects] builds for one entry of
    [file_contents], as the constructor call leaves it. *)
Definition file_loaded_of (self : FileCompressor) (item : Path * string)
    : option FileLoaded :=
  module_str ← path_to_module_str (truediv (_base_module self) item.1);
  imports ← find_modules_directly_imported_by (_import_graph self) module_str;
  imported_in ←
    find_modules_that_directly_import (_import_graph self) module_str;
  Some (MkFileLoaded module_str item.1 item.2 (-1) imports imported_in).

(** An entry [create_file_loaded_objects] gets through: its path joined to
    the base module has a module string, and the graph has that module. *)
Definition loadable (self : FileCompressor) (item : Path * string) : Prop :=
  ∃ module_str,
    path_to_module_str (truediv (_base_module self) item.1) = Some module_str
    ∧ is_Some
        (find_modules_directly_imported_by (_import_graph self) module_str)
    ∧ is_Some
        (find_modules_that_directly_import (_import_graph self) module_str).

(** The record once [determine_importance] has gone over it. *)
Definition scored (file : FileLoaded) : FileLoaded :=
  with_importance file (calculate_importance_feature file).

(** ** Example files *)

(** An entry point without an extension. *)
Definition main_no_extension : FileLoaded :=
  MkFileLoaded "main" (MkPath "" ["main"]) "print(1)" (-1) ∅ ∅.

Definition main_py : FileLoaded :=
  MkFileLoaded "src.main" (MkPath "" ["src"; "main.py"])
    "import src.util
print(1)" (-1) {[ "src.util" ]} ∅.

Definition empty_init : FileLoaded :=
  MkFileLoaded "src" (MkPath "" ["src"; "__init__.py"]) "" (-1) ∅ ∅.

Definition util_py : FileLoaded :=
  MkFileLoaded "src.util" (MkPath "" ["src"; "util.py"]) "x = 1" (-1)
    ∅ {[ "src.main" ]}.

(** A store with [main_py] and [util_py], and the list
    [[util_py, main_py, util_py]]. *)
Definition example_store : store :=
  MkStore [main_py; util_py] [[1; 0; 1]%nat].

(** A graph of five modules with one import, of [src.util] in
    [src.main]. *)
Definition example_modules : list string :=
  ["src"; "src.a"; "src.b"; "src.main"; "src.util"].

Definition example_graph : ImportGraph :=
  MkImportGraph
    (λ m,
       if decide (m ∈ example_modules)
       then Some (if decide (m = "src.main") then {[ "src.util" ]} else ∅)
       else None)
    (λ m,
       if decide (m ∈ example_modules)
       then Some (if decide (m = "src.util") then {[ "src.main" ]} else ∅)
       else None).

(** [a.py] and [b.py] tie; [main.py] comes last in the [dict]. *)
Definition example_compressor : FileCompressor :=
  MkFileCompressor
    [ (MkPath "" ["util.py"], "x = 1");
      (MkPath "" ["a.py"], "y = 2");
      (MkPath "" ["__init__.py"], "");
      (MkPath "" ["b.py"], "z = 3");
      (MkPath "" ["main.py"], "import src.util") ]
    example_graph (MkPath "" ["src"]).

(** ** [FileCompressor.report_file_contents]

    What it prints.  [str(file_path)] depends on the flavour of the path
    and the two-decimal rendering of [content_len / total_chars * 100] on
    floating-point arithmetic: both are parameters.  The rendering is asked
    for only when [total_chars > 0]; otherwise the number is [0.0], which
    prints as [0.00]. *)


Section report_file_contents.

Variable E : Type.
Variable str_of_path : Path → string.
Variable percent_2f : Z → Z → string.




End report_file_contents.


End Ranker.

(** * The policy review ([normyformy/main.py])

    [_sanitize_property_name] and [extract_policy_data].  A [str] is the
    list of its characters; a character is a code point below 256. *)

Module Policies.

(** A [str] is the sequence of its characters, a character its code
    point. *)
Definition char := N.
Definition str := list char.

Definition chr (c : ascii) : char := N_of_ascii c.
Definition lit (s : string) : str := List.map chr (list_ascii_of_string s).

(** ** [str] methods *)

(** [c.isspace()]: the white space of Unicode, which is tab to carriage
    return, the four separators, the space, next line, the no-break space,
    and, above the Latin-1 range, U+1680, U+2000 to U+200A, U+2028, U+2029,
    U+202F, U+205F and U+3000. *)
Definition is_space (c : char) : bool :=
  ((9 <=? c) && (c <=? 13) || (28 <=? c) && (c <=? 32)
   || (c =? 133) || (c =? 160) || (c =? 5760)
   || (8192 <=? c) && (c <=? 8202) || (c =? 8232) || (c =? 8233)
   || (c =? 8239) || (c =? 8287) || (c =? 12288))%N.

Fixpoint lstrip (chars : char → bool) (s : str) : str :=
  match s with
  | [] => []
  | c :: s' => if chars c then lstrip chars s' else s
  end.

Definition rstrip (chars : char → bool) (s : str) : str :=
  rev (lstrip chars (rev s)).

(** [s.strip()] with [is_space], [s.strip(".")] with the test for a dot. *)
Definition strip (chars : char → bool) (s : str) : str :=
  rstrip chars (lstrip chars s).

(** [s.replace(old, new)] for an [old] that is not empty: the occurrences
    of [old] are taken from the left and do not overlap; [skip] is the
    number of characters still to pass of the occurrence just replaced. *)
Fixpoint replace_go (old new : str) (skip : nat) (s : str)
    : str :=
  match s with
  | [] => []
  | c :: s' =>
      match skip with
      | S skip => replace_go old new skip s'
      | O =>
          if decide (old `prefix_of` s)
          then new ++ replace_go old new (length old - 1) s'
          else c :: replace_go old new 0 s'
      end
  end.

Definition str_replace (old new s : str) : str :=
  replace_go old new 0 s.

(** [s.endswith(suffix)]. *)
Definition endswith (s suffix : str) : bool :=
  bool_decide (suffix `suffix_of` s).

(** [old in s]. *)
Fixpoint contains (s old : str) : bool :=
  match s with
  | [] => bool_decide (old = [])
  | _ :: s' => bool_decide (old `prefix_of` s) || contains s' old
  end.

(** ** [_sanitize_property_name] *)

(** The class [[a-zA-Z0-9_-]]. *)
Definition is_allowed (c : char) : bool :=
  ((97 <=? c) && (c <=? 122) || (65 <=? c) && (c <=? 90)
   || (48 <=? c) && (c <=? 57) || (c =? 95) || (c =? 45))%N.

(** [re.sub(r'[^a-zA-Z0-9_-]', '_', s)]: every character outside the class
    is a match of its own. *)
Definition re_sub_disallowed (s : str) : str :=
  List.map (λ c, if is_allowed c then c else chr "_") s.

Definition _sanitize_property_name (prop : str) : str :=
  let sanitized := strip (λ c, bool_decide (c = chr ".")) (strip is_space prop) in
  let sanitized := str_replace (lit ",") (lit "") sanitized in
  let sanitized := str_replace (lit " ") (lit "_") sanitized in
  let sanitized :=
    str_replace [chr "034"] (lit "") (str_replace (lit "'") (lit "") sanitized) in
  let sanitized := re_sub_disallowed sanitized in
  sanitized.

(** ** [extract_policy_data] *)

(** A [dict]: its items in insertion order, no key twice. *)
Section dict.
Context {V : Type}.

Fixpoint dict_get (k : str) (d : list (str * V)) : option V :=
  match d with
  | [] => None
  | (k', v) :: d' => if decide (k' = k) then Some v else dict_get k d'
  end.

(** [d[k] = v]: in place for a key of [d], at the end for a new one. *)
Fixpoint dict_set (k : str) (v : V) (d : list (str * V))
    : list (str * V) :=
  match d with
  | [] => [(k, v)]
  | (k', v') :: d' =>
      if decide (k' = k) then (k, v) :: d' else (k', v') :: dict_set k v d'
  end.

End dict.

Definition verdict_suffix : str := lit "_policy_followed_verdict".
Definition comment_suffix : str := lit "_review_comment".

Section extract_policy_data.
Context {V : Type}.

(** [policies_dict.setdefault(policy_name, {})[field] = value]. *)
Definition set_field (policy_name field : str) (value : V)
    (policies_dict : list (str * list (str * V)))
    : list (str * list (str * V)) :=
  let data := default [] (dict_get policy_name policies_dict) in
  dict_set policy_name (dict_set field value data) policies_dict.

Definition extract_policy_data (evaluation : list (str * V))
    : list (str * list (str * V)) :=
  foldl
    (λ policies_dict '(key, value),
       if endswith key verdict_suffix then
         let policy_name := str_replace verdict_suffix (lit "") key in
         set_field policy_name (lit "verdict") value policies_dict
       else if endswith key comment_suffix then
         let policy_name := str_replace comment_suffix (lit "") key in
         set_field policy_name (lit "comment") value policies_dict
       else policies_dict)
    [] evaluation.

End extract_policy_data.

(** ** What the statements are about *)

(** No proper suffix of [old] begins [old]: two occurrences of [old] cannot
    overlap. *)
Definition unbordered (old : str) : bool :=
  forallb (λ m, negb (bool_decide (drop m old `prefix_of` old)))
    (seq 1 (length old - 1)).

(** The field of a policy in the result, as [print_report] reads it:
    [policies_dict[policy_name].get(field)]. *)
Definition field_of {V} (policies_dict : list (str * list (str * V)))
    (policy_name field : str) : option V :=
  data ← dict_get policy_name policies_dict; dict_get field data.

(** A policy name on which the two suffixes can be told: it holds none of
    them. *)
Definition clean (policy_name : str) : bool :=
  negb (contains policy_name verdict_suffix)
  && negb (contains policy_name comment_suffix).

(** A key of an evaluation [extract_policy_data] reads as meant: a clean
    name and one suffix, or a key that ends with neither. *)
Definition plain_key (key : str) : Prop :=
  (∃ policy_name,
     clean policy_name = true
     ∧ (key = policy_name ++ verdict_suffix
        ∨ key = policy_name ++ comment_suffix))
  ∨ (endswith key verdict_suffix = false
     ∧ endswith key comment_suffix = false).

(** An evaluation with two policies, their keys mixed, and a key that is
    not of the schema. *)
Definition example_evaluation : list (str * string) :=
  [ (lit "A_review_comment", "good");
    (lit "B_policy_followed_verdict", "5");
    (lit "A_policy_followed_verdict", "3");
    (lit "other", "x");
    (lit "B_review_comment", "bad") ].

End Policies.


(** * The report ([normyformy/core/report.py])

    [ReportFormatter.format].  [f"{relative_path}"] is [str] of the key of
    [file_contents], which depends on the flavour of the path: it is a
    parameter. *)

Module Report.

(** [s * n]. *)
Fixpoint str_mul (s : string) (n : nat) : string :=
  match n with
  | O => ""
  | S n => s +:+ str_mul s n
  end.

Record ReportFormatter := MkReportFormatter {
  project_name : string;
  directory_tree : string;
  file_contents : list (Ranker.Path * string);
}.

Section format.
Variable str_of_path : Ranker.Path → string.

(** What one round of the loop appends to [report]. *)
Definition file_section (item : Ranker.Path * string) : list string :=
  let '(relative_path, content) := item in
  [ newline +:+ "File: " +:+ str_of_path relative_path;
    str_mul "-" 40;
    content;
    str_mul "-" 40 ].

Definition format (self : ReportFormatter) : string :=
  let report :=
    [ "Directory Structure:";
      project_name self;
      directory_tree self;
      newline +:+ "File Contents:" ] in
  let report :=
    foldl (λ report item, report ++ file_section item) report
      (file_contents self) in
  String.concat newline report.

End format.

End Report.


(** * Properties of the compressor *)

Module AstFacts.
Import Ast.

(** ** Induction on statements, through the statement lists they own *)

Section stmt_induction.
Variable P : stmt → Prop.
Hypothesis P_function : ∀ name args body p,
  Forall P body → P (FunctionDef name args body p).
Hypothesis P_async : ∀ name args body p,
  Forall P body → P (AsyncFunctionDef name args body p).
Hypothesis P_class : ∀ name bases body p,
  Forall P body → P (ClassDef name bases body p).
Hypothesis P_import : ∀ names p, P (Import names p).
Hypothesis P_import_from : ∀ m names p, P (ImportFrom m names p).
Hypothesis P_assign : ∀ src p, P (Assign src p).
Hypothesis P_ann_assign : ∀ src p, P (AnnAssign src p).
Hypothesis P_expr : ∀ value p, P (Expr value p).
Hypothesis P_compound : ∀ kind header blocks p,
  Forall (Forall P) blocks → P (Compound kind header blocks p).
Hypothesis P_simple : ∀ src p, P (Simple src p).

Lemma stmt_nested_ind : ∀ node, P node.
Proof.
  fix IH 1. intros [n a body p|n a body p|n b body p| | | | | |k h blocks p| ].
  - apply P_function. induction body; constructor; [apply IH | assumption].
  - apply P_async. induction body; constructor; [apply IH | assumption].
  - apply P_class. induction body; constructor; [apply IH | assumption].
  - apply P_import.
  - apply P_import_from.
  - apply P_assign.
  - apply P_ann_assign.
  - apply P_expr.
  - apply P_compound.
    induction blocks as [|block blocks IHb]; constructor; [| assumption].
    induction block; constructor; [apply IH | assumption].
  - apply P_simple.
Qed.
End stmt_induction.

(** ** What the rewriting keeps of a statement *)

Lemma walk_stmt_is_str_expr kd kca ilc s :
  is_str_expr (walk_stmt kd kca ilc s) = is_str_expr s.
Proof. by destruct s. Qed.

Lemma walk_stmt_is_import kd kca ilc s :
  is_import (walk_stmt kd kca ilc s) = is_import s.
Proof. by destruct s. Qed.

Lemma erase_is_str_expr s : is_str_expr (erase_stmt s) = is_str_expr s.
Proof. by destruct s. Qed.

Lemma erase_is_import s : is_import (erase_stmt s) = is_import s.
Proof. by destruct s. Qed.

Lemma erase_is_attribute s : is_attribute (erase_stmt s) = is_attribute s.
Proof. by destruct s. Qed.

Lemma filter_map_commute {A} (p : A → bool) (f : A → A) (l : list A) :
  (∀ x, p (f x) = p x) →
  List.filter p (List.map f l) = List.map f (List.filter p l).
Proof.
  intros Hp. induction l as [|x l IH]; [done|].
  simpl. rewrite Hp. destruct (p x); simpl; by rewrite IH.
Qed.

Lemma has_docstring_map (f : stmt → stmt) body :
  (∀ s, is_str_expr (f s) = is_str_expr s) →
  _has_docstring (List.map f body) = _has_docstring body.
Proof. intros Hf. destruct body; simpl; auto. Qed.

(** ** Line counts *)

Lemma count_total_lines_from (stmts : list stmt) (total : Z) :
  foldl (λ total s, total + stmt_lines s) total stmts
  = total + foldr (λ s n, stmt_lines s + n) 0 stmts.
Proof.
  revert total. induction stmts as [|s stmts IH]; intros total; simpl.
  - lia.
  - rewrite IH. lia.
Qed.

Lemma stmt_lines_spans (stmts : list stmt) (at_lines : list (Z * Z)) :
  List.map stmt_span stmts = List.map (λ se, lines se.1 se.2) at_lines →
  foldr (λ s n, stmt_lines s + n) 0 stmts
  = foldr (λ se n, (se.2 - se.1 + 1) + n) 0 at_lines.
Proof.
  revert at_lines. induction stmts as [|s stmts IH]; intros [|se at_lines] H;
    simpl in *; try discriminate; [done|].
  injection H as Hs Hrest. rewrite (IH at_lines Hrest).
  unfold stmt_lines. rewrite Hs. simpl. lia.
Qed.

Lemma count_total_lines_spans (stmts : list stmt) (at_lines : list (Z * Z)) :
  List.map stmt_span stmts = List.map (λ se, lines se.1 se.2) at_lines →
  _count_total_lines stmts = foldr (λ se n, (se.2 - se.1 + 1) + n) 0 at_lines.
Proof.
  intros H. unfold _count_total_lines.
  rewrite count_total_lines_from, (stmt_lines_spans _ _ H). lia.
Qed.

(** C3.  A class body compressed with [keep_docstrings=False],
    [keep_class_attributes=True], [include_line_count=True] becomes its
    assignment statements ([Assign], [AnnAssign]) in their order, then one
    placeholder whose count is the sum of [end_lineno - lineno + 1] over the
    statements of the body as it was. *)
Theorem compress_class_attributes_then_count
    (body : list stmt) (at_lines : list (Z * Z)) :
  List.map stmt_span body = List.map (λ se, lines se.1 se.2) at_lines →
  _compress_class body false true true
  = List.filter is_attribute body
    ++ [Placeholder
          ("<Content purposely removed: "
           +:+ str_of_int (foldr (λ se n, (se.2 - se.1 + 1) + n) 0 at_lines)
           +:+ " lines>")].
Proof.
  intros H. unfold _compress_class, _append_placeholder, placeholder_msg.
  simpl. by rewrite (count_total_lines_spans _ _ H).
Qed.

(** The example of C3: attributes [a = 1], [b = 2] and a method, ten lines
    in all. *)
Lemma compress_class_example :
  _compress_class example_class_body false true true
  = [ Assign "a = 1" (lines 2 2);
      Assign "b = 2" (lines 3 3);
      Placeholder "<Content purposely removed: 10 lines>" ].
Proof.
  exact (compress_class_attributes_then_count example_class_body
           [(2, 2); (3, 3); (4, 11)] eq_refl).
Defined.

(** ** The module docstring pass *)

(** With the imports kept, the docstring pass sees the module as it was
    parsed: it takes the first statement when that is a string, and nothing
    else. *)
Lemma docstring_pass_with_imports tree ilc kca :
  mod_body (compress_tree tree false true ilc kca)
  = List.map (walk_stmt false kca ilc)
      (if _has_docstring (mod_body tree)
       then drop 1 (mod_body tree) else mod_body tree).
Proof.
  unfold compress_tree, _walk_and_compress, _remove_module_docstring. simpl.
  destruct (mod_body tree) as [|first_stmt rest] eqn:E; simpl; [by rewrite E|].
  destruct (is_str_expr first_stmt); simpl; by rewrite ?E.
Qed.

(** C5.  With [keep_docstrings=False] and [keep_imports=False] the
    docstring pass runs on the module without its imports: in
    [import os / "not a docstring" / x = 1] the string is the second
    statement, [_remove_module_docstring] alone leaves it, it stays when the
    imports are kept, and it is removed when they are not. *)
Theorem docstring_pass_after_import_filter ilc kca :
  mod_body late_string_module !! 1%nat = Some late_string
  ∧ _remove_module_docstring late_string_module = late_string_module
  ∧ mod_body (compress_tree late_string_module false true ilc kca)
    = mod_body late_string_module
  ∧ mod_body (compress_tree late_string_module false false ilc kca)
    = [ Assign "x = 1" (lines 3 3) ].
Proof. done. Qed.

(** ** Compressed bodies *)

Lemma has_docstring_head body :
  _has_docstring body = true →
  ∃ d rest, body = d :: rest ∧ is_str_expr d = true.
Proof. destruct body as [|d rest]; [done|]. simpl. eauto. Qed.

Lemma placeholder_msg_text body ilc :
  placeholder_text (placeholder_msg body ilc).
Proof. destruct ilc; [right; by eexists | by left]. Qed.

Lemma compress_function_compressed body kd ilc :
  compressed_body (_compress_function body kd ilc).
Proof.
  unfold _compress_function, _append_placeholder.
  destruct (kd && _has_docstring body) eqn:E.
  - apply andb_true_iff in E as [_ (d & rest & -> & Hd)%has_docstring_head].
    exists [d], [], (placeholder_msg (d :: rest) ilc).
    split_and!; simpl; auto using placeholder_msg_text.
  - exists [], [], (placeholder_msg body ilc).
    split_and!; simpl; auto using placeholder_msg_text.
Qed.

Lemma Forall_filter_true {A} (p : A → bool) (l : list A) :
  Forall (λ x, p x = true) (List.filter p l).
Proof.
  induction l as [|x l IH]; simpl; [constructor|].
  destruct (p x) eqn:E; [by constructor | done].
Qed.

Lemma compress_class_compressed body kd kca ilc :
  compressed_body (_compress_class body kd kca ilc).
Proof.
  unfold _compress_class, _append_placeholder.
  destruct (kd && _has_docstring body) eqn:E.
  - apply andb_true_iff in E as [_ (d & rest & -> & Hd)%has_docstring_head].
    exists [d], (if kca then List.filter is_attribute rest else []),
      (placeholder_msg (d :: rest) ilc).
    split_and!; simpl; auto using placeholder_msg_text.
    all: destruct kca; solve [done | apply Forall_filter_true | constructor].
  - exists [], (if kca then List.filter is_attribute body else []),
      (placeholder_msg body ilc).
    split_and!; simpl; auto using placeholder_msg_text.
    all: destruct kca; solve [done | apply Forall_filter_true | constructor].
Qed.

Lemma flat_map_nil {A B} (f : A → list B) (l : list A) :
  Forall (λ x, f x = []) l → flat_map f l = [].
Proof. induction 1 as [|x l Hx _ IH]; simpl; [done|]. by rewrite Hx, IH. Qed.

(** The statements of a compressed body own no statement list: a walk finds
    no definition under them, and rewriting them changes nothing. *)
Lemma compressed_body_leaves body :
  compressed_body body →
  Forall (λ s, is_str_expr s = true ∨ is_attribute s = true) body.
Proof.
  intros (doc & attrs & msg & -> & _ & _ & Hdoc & Hattrs).
  rewrite !Forall_app. repeat split.
  - eapply Forall_impl; [exact Hdoc | auto].
  - eapply Forall_impl; [exact Hattrs | auto].
  - repeat constructor.
Qed.

Lemma leaf_def_bodies s :
  is_str_expr s = true ∨ is_attribute s = true → def_bodies s = [].
Proof. by destruct s; intros [?|?]. Qed.

Lemma leaf_walk_stmt kd kca ilc s :
  is_str_expr s = true ∨ is_attribute s = true → walk_stmt kd kca ilc s = s.
Proof. by destruct s; intros [?|?]. Qed.

Lemma compressed_body_no_defs body :
  compressed_body body → flat_map def_bodies body = [].
Proof.
  intros H%compressed_body_leaves. apply flat_map_nil.
  eapply Forall_impl; [exact H | apply leaf_def_bodies].
Qed.

(** What [ast.walk] would later do under a replaced body cannot be seen. *)
Lemma compressed_body_walk_fixed kd kca ilc body :
  compressed_body body → List.map (walk_stmt kd kca ilc) body = body.
Proof.
  intros H%compressed_body_leaves.
  induction H as [|s body Hs _ IH]; simpl; [done|].
  by rewrite (leaf_walk_stmt _ _ _ _ Hs), IH.
Qed.

Lemma walk_stmt_def_bodies kd kca ilc s :
  Forall compressed_body (def_bodies (walk_stmt kd kca ilc s)).
Proof.
  induction s as [n a body p _|n a body p _|n b body p _| | | | |
                  |k h blocks p IH| ] using stmt_nested_ind;
    simpl; try constructor.
  - apply compress_function_compressed.
  - rewrite compressed_body_no_defs by apply compress_function_compressed.
    constructor.
  - apply compress_function_compressed.
  - rewrite compressed_body_no_defs by apply compress_function_compressed.
    constructor.
  - apply compress_class_compressed.
  - rewrite compressed_body_no_defs by apply compress_class_compressed.
    constructor.
  - apply Forall_flat_map, Forall_forall. intros block' Hin.
    apply list_elem_of_In, in_map_iff in Hin as (block & <- & Hin).
    apply Forall_flat_map, Forall_forall. intros s' Hin'.
    apply list_elem_of_In, in_map_iff in Hin' as (s & <- & Hin').
    apply list_elem_of_In in Hin, Hin'.
    rewrite Forall_forall in IH. specialize (IH block Hin).
    rewrite Forall_forall in IH. by apply IH.
Qed.

Lemma filter_sublist {A} (p : A → bool) (l : list A) :
  List.filter p l `sublist_of` l.
Proof.
  induction l as [|x l IH]; simpl; [constructor|].
  destruct (p x); by constructor.
Qed.

(** The statements the module keeps, before the walk. *)
Lemma compress_tree_kept tree kd ki ilc kca :
  ∃ kept,
    kept `sublist_of` mod_body tree
    ∧ mod_body (compress_tree tree kd ki ilc kca)
      = List.map (walk_stmt kd kca ilc) kept.
Proof.
  unfold compress_tree, _walk_and_compress. simpl.
  set (t1 := if negb ki then _filter_imports tree else tree).
  assert (mod_body t1 `sublist_of` mod_body tree) as H1.
  { subst t1. destruct ki; simpl; [done | apply filter_sublist]. }
  set (t2 := if negb kd then _remove_module_docstring t1 else t1).
  assert (mod_body t2 `sublist_of` mod_body t1) as H2.
  { subst t2. destruct kd; simpl; [done|]. unfold _remove_module_docstring.
    destruct (mod_body t1) as [|first_stmt rest] eqn:E; [by rewrite E|].
    destruct (is_str_expr first_stmt); simpl; [by constructor | by rewrite E]. }
  exists (mod_body t2). split; [by etrans | done].
Qed.

(** ** Line numbers do not matter when lines are not counted *)

Lemma erase_compress_function body kd :
  List.map erase_stmt (_compress_function body kd false)
  = _compress_function (List.map erase_stmt body) kd false.
Proof.
  unfold _compress_function, _append_placeholder.
  rewrite (has_docstring_map _ _ erase_is_str_expr), map_app.
  by destruct (kd && _has_docstring body); simpl; rewrite ?firstn_map.
Qed.

Lemma erase_compress_class body kd kca :
  List.map erase_stmt (_compress_class body kd kca false)
  = _compress_class (List.map erase_stmt body) kd kca false.
Proof.
  unfold _compress_class, _append_placeholder.
  rewrite (has_docstring_map _ _ erase_is_str_expr).
  destruct (kd && _has_docstring body), kca; simpl;
    rewrite ?map_app, ?firstn_map, ?skipn_map,
      ?(filter_map_commute _ _ _ erase_is_attribute); reflexivity.
Qed.

Lemma map_ext_Forall2 {A B} (f g : A → B) (l : list A) :
  Forall (λ x, f x = g x) l → List.map f l = List.map g l.
Proof. induction 1 as [|x l Hx _ IH]; simpl; [done|]. by rewrite Hx, IH. Qed.

Lemma erase_walk_stmt kd kca s :
  erase_stmt (walk_stmt kd kca false s)
  = walk_stmt kd kca false (erase_stmt s).
Proof.
  induction s as [n a body p _|n a body p _|n b body p _| | | | |
                  |k h blocks p IH| ] using stmt_nested_ind;
    simpl; try done.
  - by rewrite erase_compress_function.
  - by rewrite erase_compress_function.
  - by rewrite erase_compress_class.
  - f_equal. rewrite !map_map. apply map_ext_Forall2.
    eapply Forall_impl; [exact IH|]. intros block Hblock. simpl in *.
    rewrite !map_map. by apply map_ext_Forall2.
Qed.

Lemma erase_filter_imports tree :
  erase (_filter_imports tree) = _filter_imports (erase tree).
Proof.
  unfold erase, _filter_imports. simpl. f_equal. symmetry.
  apply filter_map_commute. intros s. by rewrite erase_is_import.
Qed.

Lemma erase_remove_module_docstring tree :
  erase (_remove_module_docstring tree)
  = _remove_module_docstring (erase tree).
Proof.
  destruct tree as [[|first_stmt rest]]; [done|].
  unfold erase, _remove_module_docstring. simpl.
  rewrite erase_is_str_expr. by destruct (is_str_expr first_stmt).
Qed.

Lemma erase_walk_and_compress tree kd kca :
  erase (_walk_and_compress tree kd kca false)
  = _walk_and_compress (erase tree) kd kca false.
Proof.
  unfold erase, _walk_and_compress. simpl. f_equal. rewrite !map_map.
  apply map_ext. intros s. apply erase_walk_stmt.
Qed.

Lemma erase_compress_tree tree kd ki kca :
  erase (compress_tree tree kd ki false kca)
  = compress_tree (erase tree) kd ki false kca.
Proof.
  unfold compress_tree. rewrite erase_walk_and_compress. f_equal.
  destruct kd, ki; simpl;
    by rewrite ?erase_remove_module_docstring, ?erase_filter_imports.
Qed.

(** ** Compressing a compressed tree *)

Lemma compress_function_twice body kd :
  (kd = true → length (_compress_function body kd false) ≠ 1%nat) →
  _compress_function (_compress_function body kd false) kd false
  = _compress_function body kd false.
Proof.
  unfold _compress_function, _append_placeholder.
  destruct (kd && _has_docstring body) eqn:E.
  - apply andb_true_iff in E as [-> (d & rest & -> & Hd)%has_docstring_head].
    simpl. by rewrite Hd.
  - destruct kd; simpl; [|done]. intros H. by destruct H.
Qed.

Lemma filter_attribute_placeholder attrs msg :
  Forall (λ s, is_attribute s = true) attrs →
  List.filter is_attribute (attrs ++ [Placeholder msg]) = attrs.
Proof.
  induction 1 as [|s attrs Hs _ IH]; simpl; [done|]. by rewrite Hs, IH.
Qed.

Lemma compress_class_twice body kd kca :
  (kd = true → length (_compress_class body kd kca false) ≠ 1%nat) →
  _compress_class (_compress_class body kd kca false) kd kca false
  = _compress_class body kd kca false.
Proof.
  unfold _compress_class, _append_placeholder.
  destruct (kd && _has_docstring body) eqn:E.
  - apply andb_true_iff in E as [-> (d & rest & -> & Hd)%has_docstring_head].
    intros _. destruct kca; simpl; rewrite Hd; simpl; [|done].
    rewrite !drop_0.
    by rewrite filter_attribute_placeholder by apply Forall_filter_true.
  - simpl. rewrite drop_0. intros Hlen.
    set (attrs := if kca then List.filter is_attribute body else []) in *.
    assert (Forall (λ s, is_attribute s = true) attrs) as Hattrs.
    { subst attrs. destruct kca; [apply Forall_filter_true | constructor]. }
    assert (kd && _has_docstring (attrs ++ [Placeholder "<Content purposely removed>"])
            = false) as ->.
    { destruct kd; [|done]. simpl.
      destruct Hattrs as [|a attrs' Ha _]; [by destruct Hlen|].
      simpl. by destruct a. }
    simpl. rewrite drop_0.
    destruct kca; [|done].
    by rewrite filter_attribute_placeholder.
Qed.

Lemma walk_stmt_twice kd kca s :
  (kd = true →
   Forall (λ body, length body ≠ 1%nat) (def_bodies (walk_stmt kd kca false s))) →
  walk_stmt kd kca false (walk_stmt kd kca false s) = walk_stmt kd kca false s.
Proof.
  induction s as [n a body p _|n a body p _|n b body p _| | | | |
                  |k h blocks p IH| ] using stmt_nested_ind;
    simpl; try done; intros H.
  - rewrite compress_function_twice; [done|].
    intros Hkd. specialize (H Hkd). by inversion H.
  - rewrite compress_function_twice; [done|].
    intros Hkd. specialize (H Hkd). by inversion H.
  - rewrite compress_class_twice; [done|].
    intros Hkd. specialize (H Hkd). by inversion H.
  - f_equal. rewrite map_map. apply map_ext_Forall2.
    apply Forall_forall. intros block Hblock.
    rewrite map_map. apply map_ext_Forall2.
    apply Forall_forall. intros s Hs.
    rewrite Forall_forall in IH. specialize (IH block Hblock).
    rewrite Forall_forall in IH. apply (IH s Hs).
    intros Hkd. specialize (H Hkd).
    apply List.Forall_flat_map in H. rewrite Forall_forall in H.
    assert (List.map (walk_stmt kd kca false) block
            ∈ List.map (List.map (walk_stmt kd kca false)) blocks) as Hin.
    { apply list_elem_of_In, in_map. by apply list_elem_of_In. }
    specialize (H _ Hin).
    apply List.Forall_flat_map in H. rewrite Forall_forall in H.
    apply H. apply list_elem_of_In, in_map. by apply list_elem_of_In.
Qed.

Lemma remove_module_docstring_sublist tree :
  mod_body (_remove_module_docstring tree) `sublist_of` mod_body tree.
Proof.
  destruct tree as [[|first_stmt rest]]; [done|].
  unfold _remove_module_docstring. simpl.
  destruct (is_str_expr first_stmt); simpl; [by constructor | done].
Qed.

Lemma filter_all {A} (p : A → bool) (l : list A) :
  Forall (λ x, p x = true) l → List.filter p l = l.
Proof. induction 1 as [|x l Hx _ IH]; simpl; [done|]. by rewrite Hx, IH. Qed.

(** With [keep_imports=False] no import is left in the module body. *)
Lemma compress_tree_no_imports tree kd ilc kca :
  Forall (λ s, negb (is_import s) = true)
    (mod_body (compress_tree tree kd false ilc kca)).
Proof.
  unfold compress_tree, _walk_and_compress. simpl.
  apply Forall_forall. intros s' Hin.
  apply list_elem_of_In, in_map_iff in Hin as (s & <- & Hin).
  rewrite walk_stmt_is_import.
  assert (s ∈ mod_body (_filter_imports tree)) as Hs.
  { apply list_elem_of_In in Hin. destruct kd; simpl in Hin; [done|].
    eapply elem_of_submseteq; [exact Hin|].
    apply sublist_submseteq, remove_module_docstring_sublist. }
  by apply list_elem_of_In, filter_In in Hs as [_ ?].
Qed.

Lemma settled_bodies tree :
  settled true tree = true →
  Forall (λ body, length body ≠ 1%nat) (module_def_bodies tree).
Proof.
  unfold settled. intros H. apply Forall_forall. intros body Hin.
  apply list_elem_of_In in Hin.
  rewrite forallb_forall in H. specialize (H body Hin).
  apply negb_true_iff, Nat.eqb_neq in H. done.
Qed.

(** A settled compressed tree is left as it is by a second run. *)
Lemma compress_tree_twice tree kd ki kca :
  settled kd (compress_tree tree kd ki false kca) = true →
  compress_tree (compress_tree tree kd ki false kca) kd ki false kca
  = compress_tree tree kd ki false kca.
Proof.
  intros Hsettled.
  pose proof (compress_tree_no_imports tree kd false kca) as Himports.
  destruct (compress_tree_kept tree kd ki false kca) as (kept & _ & Hkept).
  set (c := compress_tree tree kd ki false kca) in *.
  unfold compress_tree at 1.
  assert ((if negb ki then _filter_imports c else c) = c) as ->.
  { destruct ki; simpl; [done|]. unfold _filter_imports.
    fold c in Himports. rewrite (filter_all _ _ Himports). by destruct c. }
  assert ((if negb kd then _remove_module_docstring c else c) = c) as ->.
  { destruct kd; simpl; [done|]. unfold settled in Hsettled.
    apply negb_true_iff in Hsettled.
    unfold _remove_module_docstring.
    destruct (mod_body c) as [|first_stmt rest]; [done|].
    simpl in Hsettled. by rewrite Hsettled. }
  unfold _walk_and_compress. destruct c as [body]. simpl in *. f_equal.
  subst body. rewrite map_map. apply map_ext_Forall2.
  apply Forall_forall. intros s Hs. apply walk_stmt_twice.
  intros ->. apply settled_bodies in Hsettled.
  unfold module_def_bodies in Hsettled. simpl in Hsettled.
  rewrite List.Forall_flat_map, Forall_forall in Hsettled.
  apply Hsettled. apply list_elem_of_In, in_map. by apply list_elem_of_In.
Qed.

(** *** A tree that is not settled changes again *)

Lemma compress_function_lone body :
  length (_compress_function body true false) = 1%nat →
  length (_compress_function (_compress_function body true false) true false)
  = 2%nat.
Proof.
  unfold _compress_function, _append_placeholder. simpl.
  destruct (_has_docstring body) eqn:E.
  - apply has_docstring_head in E as (d & rest & -> & Hd). done.
  - done.
Qed.

Lemma compress_class_lone body kca :
  length (_compress_class body true kca false) = 1%nat →
  length
    (_compress_class (_compress_class body true kca false) true kca false)
  = 2%nat.
Proof.
  unfold _compress_class, _append_placeholder. simpl.
  destruct (_has_docstring body) eqn:E.
  - apply has_docstring_head in E as (d & rest & -> & Hd).
    rewrite !length_app. destruct kca; simpl; intros H; lia.
  - rewrite drop_0.
    destruct kca; simpl; [|done].
    destruct (List.filter is_attribute body); [done|].
    simpl. rewrite length_app. simpl. lia.
Qed.

Lemma walk_stmt_unsettled kca s :
  Exists (λ body, length body = 1%nat) (def_bodies (walk_stmt true kca false s)) →
  erase_stmt (walk_stmt true kca false (walk_stmt true kca false s))
  ≠ erase_stmt (walk_stmt true kca false s).
Proof.
  induction s as [n a body p _|n a body p _|n b body p _| | | | |
                  |k h blocks p IH| ] using stmt_nested_ind;
    simpl; try (by intros H; inversion H).
  - rewrite compressed_body_no_defs by apply compress_function_compressed.
    intros [Hlen|H]%Exists_cons; [|by inversion H].
    pose proof (compress_function_lone _ Hlen) as Hlen2. intros Heq.
    injection Heq as Heq%(f_equal length).
    rewrite !length_map in Heq. lia.
  - rewrite compressed_body_no_defs by apply compress_function_compressed.
    intros [Hlen|H]%Exists_cons; [|by inversion H].
    pose proof (compress_function_lone _ Hlen) as Hlen2. intros Heq.
    injection Heq as Heq%(f_equal length).
    rewrite !length_map in Heq. lia.
  - rewrite compressed_body_no_defs by apply compress_class_compressed.
    intros [Hlen|H]%Exists_cons; [|by inversion H].
    pose proof (compress_class_lone _ _ Hlen) as Hlen2. intros Heq.
    injection Heq as Heq%(f_equal length).
    rewrite !length_map in Heq. lia.
  - intros H Heq. injection Heq as Heq.
    apply List.Exists_flat_map, Exists_exists in H as (block' & Hblock' & H).
    apply list_elem_of_In, in_map_iff in Hblock' as (block & <- & Hblock).
    apply List.Exists_flat_map, Exists_exists in H as (s' & Hs' & H).
    apply list_elem_of_In, in_map_iff in Hs' as (s & <- & Hs).
    rewrite !map_map in Heq.
    rewrite map_ext_in_iff in Heq. specialize (Heq block Hblock).
    rewrite !map_map in Heq.
    rewrite map_ext_in_iff in Heq. specialize (Heq s Hs).
    apply list_elem_of_In in Hblock, Hs.
    rewrite Forall_forall in IH. specialize (IH block Hblock).
    rewrite Forall_forall in IH. by apply (IH s Hs).
Qed.

Lemma forallb_false_Exists {A} (p : A → bool) (l : list A) :
  forallb p l = false → Exists (λ x, p x = false) l.
Proof.
  induction l as [|x l IH]; simpl; [done|].
  destruct (p x) eqn:E; simpl; [|by left]. intros H. right. by apply IH.
Qed.

(** A compressed tree that is not settled is changed by a second run, in
    its text. *)
Lemma compress_tree_unsettled tree kd ki kca :
  settled kd (compress_tree tree kd ki false kca) = false →
  erase
    (compress_tree (compress_tree tree kd ki false kca) kd ki false kca)
  ≠ erase (compress_tree tree kd ki false kca).
Proof.
  intros Hunsettled.
  pose proof (compress_tree_no_imports tree kd false kca) as Himports.
  destruct (compress_tree_kept tree kd ki false kca) as (kept & _ & Hkept).
  set (c := compress_tree tree kd ki false kca) in *.
  unfold compress_tree at 1.
  assert ((if negb ki then _filter_imports c else c) = c) as ->.
  { destruct ki; simpl; [done|]. unfold _filter_imports.
    fold c in Himports. rewrite (filter_all _ _ Himports). by destruct c. }
  clearbody c. clear Himports. destruct c as [body]. simpl in Hkept.
  unfold settled in Hunsettled. destruct kd; simpl in *.
  - apply forallb_false_Exists in Hunsettled.
    unfold module_def_bodies in Hunsettled. simpl in Hunsettled.
    rewrite Hkept in Hunsettled.
    apply List.Exists_flat_map, Exists_exists in Hunsettled as (s' & Hs' & H).
    apply list_elem_of_In, in_map_iff in Hs' as (s & <- & Hs).
    unfold erase, _walk_and_compress. simpl. rewrite Hkept.
    intros Heq. injection Heq as Heq. rewrite !map_map in Heq.
    rewrite map_ext_in_iff in Heq. specialize (Heq s Hs).
    revert Heq. apply walk_stmt_unsettled.
    eapply Exists_impl; [exact H|]. simpl. intros body' Hbody.
    by apply negb_false_iff, Nat.eqb_eq in Hbody.
  - apply negb_false_iff in Hunsettled.
    apply has_docstring_head in Hunsettled as (d & rest & -> & Hd).
    unfold erase, _walk_and_compress, _remove_module_docstring. simpl.
    rewrite Hd. simpl.
    intros Heq. injection Heq as Heq%(f_equal length).
    simpl in Heq. rewrite !length_map in Heq. lia.
Qed.

(** C1, as the code has it.  Without line counts, a second run on the text
    of a compressed module gives the same text exactly when the compressed
    module is settled: with [keep_docstrings], no class or function body is
    the placeholder alone; without it, the module does not begin with a
    string statement.  [reparsed] is any tree of the compressed text. *)
Theorem compress_settled_idempotent (tree reparsed : ast_Module) kd ki kca :
  same_text reparsed (compress_tree tree kd ki false kca) →
  same_text (compress_tree reparsed kd ki false kca)
    (compress_tree tree kd ki false kca)
  ↔ settled kd (compress_tree tree kd ki false kca) = true.
Proof.
  unfold same_text. intros Hsame.
  rewrite erase_compress_tree, Hsame, <- erase_compress_tree. split.
  - intros Heq. destruct (settled _ _) eqn:E; [done|].
    by apply compress_tree_unsettled in E.
  - intros Hsettled. by rewrite compress_tree_twice.
Qed.

Lemma compress_settled_idempotent_documented :
  same_text (compress_tree documented_module_reparsed true true false true)
    (compress_tree documented_module true true false true).
Proof.
  apply (compress_settled_idempotent documented_module
           documented_module_reparsed true true true); reflexivity.
Defined.

(** C1 as stated fails: a function without a docstring, compressed with
    [keep_docstrings=True], gets the placeholder for its body; the second
    run takes that placeholder for a docstring, keeps it and appends
    another one. *)
Lemma compress_twice_differs :
  compress_tree (compress_tree bare_function_module true true false true)
    true true false true
  = Module_
      [ FunctionDef "f" ""
          [ Placeholder "<Content purposely removed>";
            Placeholder "<Content purposely removed>" ] (lines 1 2) ]
  ∧ compress_tree bare_function_module true true false true
    = Module_
        [ FunctionDef "f" "" [ Placeholder "<Content purposely removed>" ]
            (lines 1 2) ]
  ∧ ¬ same_text
        (compress_tree
           (compress_tree bare_function_module true true false true)
           true true false true)
        (compress_tree bare_function_module true true false true).
Proof. split_and!; [done | done | discriminate]. Qed.

(** ** The text interface: errors and standard output *)

Section TextFacts.
Variable ParseError UnparseError : Type.
Variable ast_parse : string → ParseError + ast_Module.
Variable ast_unparse : ast_Module → UnparseError + string.

Local Abbreviation compress :=
  (compress_python_module ParseError UnparseError ast_parse ast_unparse).

(** What one call does, by what [ast.parse] makes of the text and
    [ast.unparse] of the compressed tree. *)
Lemma compress_python_module_run python_module kd ki ilc kca out :
  compress python_module kd ki ilc kca out
  = match ast_parse python_module with
    | inl e => (Raised (ByParse e), out)
    | inr tree =>
        match ast_unparse (compress_tree tree kd ki ilc kca) with
        | inl e => (Raised (ByUnparse e), out)
        | inr unparsed => (Returned unparsed, out ++ [unparsed +:+ newline])
        end
    end.
Proof.
  unfold compress_python_module, parse, unparse, mbind, py_bind.
  destruct (ast_parse python_module) as [e|tree]; [done|]. simpl.
  by destruct (ast_unparse _).
Qed.


(** C4.  Whenever [compress_python_module] returns, it has written the
    text it returns to standard output ([print(unparsed)]): on a text the
    parser accepts and whose compressed tree unparses, standard output is
    not what it was.  When the call raises, nothing is written. *)
Theorem compress_writes_to_stdout python_module kd ki ilc kca out :
  match ast_parse python_module with
  | inl _ => (compress python_module kd ki ilc kca out).2 = out
  | inr tree =>
      match ast_unparse (compress_tree tree kd ki ilc kca) with
      | inl _ => (compress python_module kd ki ilc kca out).2 = out
      | inr unparsed =>
          compress python_module kd ki ilc kca out
          = (Returned unparsed, out ++ [unparsed +:+ newline])
          ∧ (compress python_module kd ki ilc kca out).2 ≠ out
      end
  end.
Proof.
  rewrite compress_python_module_run.
  destruct (ast_parse python_module) as [e'|tree]; simpl; [done|].
  destruct (ast_unparse _) as [e'|unparsed]; simpl; [done|].
  split; [done|]. intros H%(f_equal length).
  rewrite length_app in H. simpl in H. lia.
Qed.

End TextFacts.

(** ** What a compressed module keeps *)

Lemma remove_module_docstring_body tree :
  mod_body (_remove_module_docstring tree)
  = without_docstring false (mod_body tree).
Proof.
  destruct tree as [[|first_stmt rest]]; [done|].
  unfold _remove_module_docstring, without_docstring. simpl.
  by destruct (is_str_expr first_stmt).
Qed.

Lemma compress_tree_body tree kd ki ilc kca :
  mod_body (compress_tree tree kd ki ilc kca)
  = List.map (walk_stmt kd kca ilc)
      (without_docstring kd (without_imports ki (mod_body tree))).
Proof.
  unfold compress_tree, _walk_and_compress. simpl. f_equal.
  destruct ki, kd; simpl; by rewrite ?remove_module_docstring_body.
Qed.

Lemma flat_map_filter_nil {A B} (f : A → list B) (p : A → bool) (l : list A) :
  (∀ x, p x = false → f x = []) →
  flat_map f (List.filter p l) = flat_map f l.
Proof.
  intros Hf. induction l as [|x l IH]; simpl; [done|].
  destruct (p x) eqn:E; simpl; rewrite IH; [done|]. by rewrite (Hf x E).
Qed.

Lemma flat_map_without_imports {B} (f : stmt → list B) ki body :
  (∀ s, is_import s = true → f s = []) →
  flat_map f (without_imports ki body) = flat_map f body.
Proof.
  intros Hf. destruct ki; simpl; [done|]. apply flat_map_filter_nil.
  intros s Hs. apply Hf. by apply negb_false_iff.
Qed.

Lemma flat_map_without_docstring {B} (f : stmt → list B) kd body :
  (∀ s, is_str_expr s = true → f s = []) →
  flat_map f (without_docstring kd body) = flat_map f body.
Proof.
  intros Hf. unfold without_docstring. destruct kd; [done|].
  destruct body as [|first_stmt rest]; simpl; [done|].
  destruct (is_str_expr first_stmt) eqn:E; simpl; [|done].
  by rewrite (Hf _ E).
Qed.

Lemma flat_map_map {A B C} (f : A → B) (g : B → list C) (l : list A) :
  flat_map g (List.map f l) = flat_map (λ x, g (f x)) l.
Proof. induction l as [|x l IH]; simpl; [done|]. by rewrite IH. Qed.

Lemma map_flat_map {A B C} (f : A → list B) (g : B → C) (l : list A) :
  List.map g (flat_map f l) = flat_map (λ x, List.map g (f x)) l.
Proof.
  induction l as [|x l IH]; simpl; [done|]. by rewrite map_app, IH.
Qed.

Lemma flat_map_ext_Forall {A B} (f g : A → list B) (l : list A) :
  Forall (λ x, f x = g x) l → flat_map f l = flat_map g l.
Proof. induction 1 as [|x l Hx _ IH]; simpl; [done|]. by rewrite Hx, IH. Qed.

Lemma outer_defs_walk_stmt kd kca ilc s :
  outer_defs (walk_stmt kd kca ilc s)
  = List.map (walk_stmt kd kca ilc) (outer_defs s).
Proof.
  induction s as [n a body p _|n a body p _|n b body p _| | | | |
                  |k h blocks p IH| ] using stmt_nested_ind;
    simpl; try done.
  rewrite flat_map_map, map_flat_map. apply flat_map_ext_Forall.
  eapply Forall_impl; [exact IH|]. intros block Hblock. simpl in *.
  rewrite flat_map_map, map_flat_map. by apply flat_map_ext_Forall.
Qed.

Lemma def_header_walk_stmt kd kca ilc s :
  def_header (walk_stmt kd kca ilc s) = def_header s.
Proof. by destruct s. Qed.

(** ** Every body ends with the one placeholder *)

Lemma compress_function_from body kd ilc :
  compressed_from body (_compress_function body kd ilc).
Proof.
  unfold _compress_function, _append_placeholder.
  destruct (kd && _has_docstring body) eqn:E.
  - apply andb_true_iff in E as [_ (d & rest & -> & Hd)%has_docstring_head].
    exists [d], [], (placeholder_msg (d :: rest) ilc).
    split_and!; simpl; auto using placeholder_msg_text.
    + by exists rest.
    + apply sublist_nil_l.
  - exists [], [], (placeholder_msg body ilc).
    split_and!; simpl; auto using placeholder_msg_text.
    + apply prefix_nil.
    + apply sublist_nil_l.
Qed.

Lemma compress_class_from body kd kca ilc :
  compressed_from body (_compress_class body kd kca ilc).
Proof.
  unfold _compress_class, _append_placeholder.
  destruct (kd && _has_docstring body) eqn:E.
  - apply andb_true_iff in E as [_ (d & rest & -> & Hd)%has_docstring_head].
    exists [d], (if kca then List.filter is_attribute rest else []),
      (placeholder_msg (d :: rest) ilc).
    split_and!; simpl; auto using placeholder_msg_text.
    + by destruct kca.
    + by exists rest.
    + destruct kca; [apply filter_sublist | apply sublist_nil_l].
    + destruct kca; [apply Forall_filter_true | constructor].
  - exists [], (if kca then List.filter is_attribute body else []),
      (placeholder_msg body ilc).
    split_and!; simpl; auto using placeholder_msg_text.
    + apply prefix_nil.
    + destruct kca; [apply filter_sublist | apply sublist_nil_l].
    + destruct kca; [apply Forall_filter_true | constructor].
Qed.

Lemma Forall2_flat_map {A B C} (R : B → C → Prop) (f : A → list B)
    (g : A → list C) (l : list A) :
  Forall (λ x, Forall2 R (f x) (g x)) l →
  Forall2 R (flat_map f l) (flat_map g l).
Proof.
  induction 1 as [|x l Hx _ IH]; simpl; [constructor|].
  by apply Forall2_app.
Qed.

(** The bodies a walk finds in a rewritten statement are those of the
    declarations the statement had outside any other, compressed: under a
    compressed body there is no declaration left to find. *)
Lemma walk_stmt_bodies_from kd kca ilc s :
  Forall2 compressed_from (List.map def_body (outer_defs s))
    (def_bodies (walk_stmt kd kca ilc s)).
Proof.
  induction s as [n a body p _|n a body p _|n b body p _| | | | |
                  |k h blocks p IH| ] using stmt_nested_ind;
    simpl; try constructor.
  - apply compress_function_from.
  - rewrite compressed_body_no_defs by apply compress_function_compressed.
    constructor.
  - apply compress_function_from.
  - rewrite compressed_body_no_defs by apply compress_function_compressed.
    constructor.
  - apply compress_class_from.
  - rewrite compressed_body_no_defs by apply compress_class_compressed.
    constructor.
  - rewrite map_flat_map, flat_map_map. apply Forall2_flat_map.
    eapply Forall_impl; [exact IH|]. intros block Hblock. simpl in *.
    rewrite map_flat_map, flat_map_map. by apply Forall2_flat_map.
Qed.

(** C8.  In a compressed tree the class and function bodies are, one for
    one and in order, those of the declarations the module had outside any
    other declaration, and each is made of statements of the body it
    replaces (its docstring at most, then assignments, in their order) and
    of exactly one statement more, the placeholder, which is last.  The
    module body is made of statements of the module as it was, rewritten in
    place and in their order, and every string statement in it (a
    placeholder is one) was a statement of the module already. *)
Theorem compressed_bodies_end_with_placeholder tree kd ki ilc kca :
  Forall2 compressed_from
    (List.map def_body (flat_map outer_defs (mod_body tree)))
    (module_def_bodies (compress_tree tree kd ki ilc kca))
  ∧ (∃ kept,
       kept `sublist_of` mod_body tree
       ∧ mod_body (compress_tree tree kd ki ilc kca)
         = List.map (walk_stmt kd kca ilc) kept)
  ∧ Forall (λ s, is_str_expr s = false ∨ s ∈ mod_body tree)
      (mod_body (compress_tree tree kd ki ilc kca)).
Proof.
  destruct (compress_tree_kept tree kd ki ilc kca) as (kept & Hsub & Hout).
  split; [|split; [by exists kept|]].
  - unfold module_def_bodies. rewrite compress_tree_body, flat_map_map.
    rewrite <- (flat_map_without_imports outer_defs ki) by (by intros []).
    rewrite <- (flat_map_without_docstring outer_defs kd)
      by (by intros [| | | | | | |[[]|]| |]).
    rewrite map_flat_map. apply Forall2_flat_map, Forall_forall.
    intros s _. apply walk_stmt_bodies_from.
  - rewrite Hout. apply Forall_forall. intros s' Hin.
    apply list_elem_of_In, in_map_iff in Hin as (s & <- & Hin).
    rewrite walk_stmt_is_str_expr.
    destruct (is_str_expr s) eqn:E; [right | by left].
    rewrite leaf_walk_stmt by auto.
    apply list_elem_of_In in Hin.
    by eapply elem_of_submseteq, sublist_submseteq.
Qed.

(** X1.  Whatever the flags, the declarations outside any other
    declaration (in the module body or in the statement lists of compound
    statements, at any depth) are the same in the compressed module, in the
    same order, each with its kind, name, arguments or bases and lines; the
    body of each is the one [_compress_function] or [_compress_class]
    gives. *)
Theorem compress_keeps_outer_declarations tree kd ki ilc kca :
  flat_map outer_defs (mod_body (compress_tree tree kd ki ilc kca))
  = List.map (walk_stmt kd kca ilc) (flat_map outer_defs (mod_body tree))
  ∧ List.map def_header
      (flat_map outer_defs (mod_body (compress_tree tree kd ki ilc kca)))
    = List.map def_header (flat_map outer_defs (mod_body tree)).
Proof.
  assert (flat_map outer_defs (mod_body (compress_tree tree kd ki ilc kca))
          = List.map (walk_stmt kd kca ilc)
              (flat_map outer_defs (mod_body tree))) as H.
  { rewrite compress_tree_body, flat_map_map.
    rewrite (flat_map_ext_Forall _
               (λ s, List.map (walk_stmt kd kca ilc) (outer_defs s)))
      by (apply Forall_forall; intros s _; apply outer_defs_walk_stmt).
    rewrite <- map_flat_map. f_equal.
    rewrite flat_map_without_docstring by (by intros [| | | | | | |[[]|]| |]).
    apply flat_map_without_imports. by intros []. }
  split; [done|]. rewrite H, map_map. apply map_ext. intros s.
  apply def_header_walk_stmt.
Qed.

Lemma imports_under_walk_stmt kd kca ilc s :
  imports_under (walk_stmt kd kca ilc s) = imports_under s.
Proof.
  induction s as [n a body p _|n a body p _|n b body p _| | | | |
                  |k h blocks p IH| ] using stmt_nested_ind;
    simpl; try done.
  rewrite flat_map_map. apply flat_map_ext_Forall.
  eapply Forall_impl; [exact IH|]. intros block Hblock. simpl in *.
  rewrite flat_map_map. by apply flat_map_ext_Forall.
Qed.

(** X2.  Import removal is not recursive.  With [keep_imports=False] no
    import is left among the statements of the module body, and the imports
    in the statement lists of compound statements ([try: import x ...]) are
    those of the module as it was; with [keep_imports=True] all of them
    are. *)
Theorem import_removal_not_recursive tree kd ki ilc kca :
  flat_map imports_under (mod_body (compress_tree tree kd ki ilc kca))
  = flat_map imports_under
      (if ki then mod_body tree
       else List.filter (λ node, negb (is_import node)) (mod_body tree))
  ∧ (if ki then True
     else Forall (λ s, is_import s = false)
            (mod_body (compress_tree tree kd ki ilc kca))).
Proof.
  split.
  - rewrite compress_tree_body, flat_map_map.
    rewrite (flat_map_ext_Forall _ imports_under)
      by (apply Forall_forall; intros s _; apply imports_under_walk_stmt).
    rewrite flat_map_without_docstring by (by intros [| | | | | | |[[]|]| |]).
    by destruct ki.
  - destruct ki; [done|].
    eapply Forall_impl; [apply compress_tree_no_imports|].
    intros s Hs. by apply negb_true_iff.
Qed.

Lemma filter_without_imports (p : stmt → bool) ki body :
  (∀ s, is_import s = true → p s = false) →
  List.filter p (without_imports ki body) = List.filter p body.
Proof.
  intros Hp. destruct ki; simpl; [done|].
  induction body as [|s body IH]; simpl; [done|].
  destruct (is_import s) eqn:E; simpl; rewrite IH; [|done].
  by rewrite (Hp s E).
Qed.

Lemma filter_without_docstring (p : stmt → bool) kd body :
  (∀ s, is_str_expr s = true → p s = false) →
  List.filter p (without_docstring kd body) = List.filter p body.
Proof.
  intros Hp. unfold without_docstring. destruct kd; [done|].
  destruct body as [|first_stmt rest]; simpl; [done|].
  destruct (is_str_expr first_stmt) eqn:E; simpl; [|done].
  by rewrite (Hp _ E).
Qed.

(** X3.  The code of the module body is not compressed: whatever the
    flags, the statements of the module body that are neither imports, nor
    strings, nor declarations, nor compound statements are in the compressed
    module as they were, in their order. *)
Theorem module_level_code_is_kept tree kd ki ilc kca :
  List.filter is_plain (mod_body (compress_tree tree kd ki ilc kca))
  = List.filter is_plain (mod_body tree).
Proof.
  rewrite compress_tree_body.
  rewrite (filter_map_commute is_plain (walk_stmt kd kca ilc))
    by (by intros []).
  rewrite filter_without_docstring by (by intros [| | | | | | |[[]|]| |]).
  rewrite filter_without_imports by (by intros []).
  induction (mod_body tree) as [|s body IH]; simpl; [done|].
  destruct (is_plain s) eqn:E; simpl; [|done].
  rewrite IH. f_equal. by destruct s.
Qed.

(** ** The third run *)

Lemma compress_function_twice_length body ilc ilc' :
  length
    (_compress_function (_compress_function body true ilc) true ilc')
  = 2%nat.
Proof.
  unfold _compress_function, _append_placeholder. simpl.
  destruct (_has_docstring body) eqn:E.
  - apply has_docstring_head in E as (d & rest & -> & Hd). simpl.
    by rewrite Hd.
  - done.
Qed.

Lemma compress_class_twice_length body kca ilc ilc' :
  (2 ≤ length
         (_compress_class (_compress_class body true kca ilc) true kca ilc'))%nat.
Proof.
  unfold _compress_class, _append_placeholder. simpl.
  destruct (_has_docstring body) eqn:E.
  - apply has_docstring_head in E as (d & rest & -> & Hd).
    destruct kca; simpl; rewrite Hd; simpl;
      rewrite ?length_app; simpl; lia.
  - rewrite drop_0. destruct kca; simpl; [|done].
    destruct (List.filter is_attribute body) as [|a attrs] eqn:Ea; [done|].
    simpl. assert (is_attribute a = true) as Ha.
    { pose proof (Forall_filter_true is_attribute body) as H.
      rewrite Ea in H. by inversion H. }
    replace (is_str_expr a) with false by (by destruct a).
    rewrite drop_0. simpl. rewrite Ha. simpl. rewrite length_app. simpl. lia.
Qed.

Lemma walk_stmt_twice_bodies kca ilc ilc' s :
  Forall (λ body, length body ≠ 1%nat)
    (def_bodies (walk_stmt true kca ilc' (walk_stmt true kca ilc s))).
Proof.
  induction s as [n a body p _|n a body p _|n b body p _| | | | |
                  |k h blocks p IH| ] using stmt_nested_ind;
    simpl; try constructor.
  - by rewrite compress_function_twice_length.
  - rewrite compressed_body_no_defs by apply compress_function_compressed.
    constructor.
  - by rewrite compress_function_twice_length.
  - rewrite compressed_body_no_defs by apply compress_function_compressed.
    constructor.
  - pose proof (compress_class_twice_length body kca ilc ilc'). lia.
  - rewrite compressed_body_no_defs by apply compress_class_compressed.
    constructor.
  - rewrite map_map. apply List.Forall_flat_map, Forall_forall.
    intros block' Hin.
    apply list_elem_of_In, in_map_iff in Hin as (block & <- & Hin).
    rewrite map_map. apply List.Forall_flat_map, Forall_forall.
    intros s' Hin'.
    apply list_elem_of_In, in_map_iff in Hin' as (s & <- & Hin').
    apply list_elem_of_In in Hin, Hin'.
    rewrite Forall_forall in IH. specialize (IH block Hin).
    rewrite Forall_forall in IH. by apply IH.
Qed.

(** With [keep_docstrings] a module compressed twice is settled. *)
Lemma compress_twice_settled tree ki kca :
  settled true
    (compress_tree (compress_tree tree true ki false kca) true ki false kca)
  = true.
Proof.
  unfold settled, module_def_bodies.
  rewrite compress_tree_body. simpl.
  apply forallb_forall. intros body Hbody.
  apply in_flat_map in Hbody as (s' & Hs' & Hbody).
  apply in_map_iff in Hs' as (s1 & <- & Hs1).
  assert (∃ s, s1 = walk_stmt true kca false s) as [s ->].
  { assert (In s1 (mod_body (compress_tree tree true ki false kca))) as H.
    { destruct ki; simpl in Hs1; [done|]. by apply filter_In in Hs1 as [? _]. }
    rewrite compress_tree_body in H.
    apply in_map_iff in H as (s & <- & _). by exists s. }
  pose proof (walk_stmt_twice_bodies kca false false s) as H.
  rewrite Forall_forall in H. apply list_elem_of_In, H in Hbody.
  by apply negb_true_iff, Nat.eqb_neq.
Qed.

(** X4.  With [keep_docstrings=True] and without line counts the text is
    stable from the second run on: the third run gives the text of the
    second.  [reparsed1] is any tree of the text of the first run,
    [reparsed2] any tree of the text of the second. *)
Theorem compress_stable_from_second_run
    (tree reparsed1 reparsed2 : ast_Module) ki kca :
  same_text reparsed1 (compress_tree tree true ki false kca) →
  same_text reparsed2 (compress_tree reparsed1 true ki false kca) →
  same_text (compress_tree reparsed2 true ki false kca)
    (compress_tree reparsed1 true ki false kca).
Proof.
  unfold same_text. intros H1 H2.
  rewrite erase_compress_tree, H2.
  rewrite (erase_compress_tree reparsed1), H1.
  rewrite <- !erase_compress_tree.
  by rewrite compress_tree_twice by apply compress_twice_settled.
Qed.

Lemma compress_stable_from_second_run_bare :
  same_text
    (compress_tree
       (compress_tree
          (compress_tree bare_function_module true true false true)
          true true false true)
       true true false true)
    (compress_tree
       (compress_tree bare_function_module true true false true)
       true true false true).
Proof.
  apply (compress_stable_from_second_run bare_function_module
           (compress_tree bare_function_module true true false true)
           (compress_tree
              (compress_tree bare_function_module true true false true)
              true true false true)
           true true); reflexivity.
Defined.

(** ** More on line counts *)

Lemma count_total_lines_sum stmts :
  _count_total_lines stmts = foldr (λ s n, stmt_lines s + n) 0 stmts.
Proof. unfold _count_total_lines. rewrite count_total_lines_from. lia. Qed.

Lemma count_total_lines_app stmts stmts' :
  _count_total_lines (stmts ++ stmts')
  = _count_total_lines stmts + _count_total_lines stmts'.
Proof.
  rewrite !count_total_lines_sum.
  induction stmts as [|s stmts IH]; simpl; [done|]. rewrite IH. lia.
Qed.

Lemma count_total_lines_cons s stmts :
  _count_total_lines (s :: stmts) = stmt_lines s + _count_total_lines stmts.
Proof. by rewrite !count_total_lines_sum. Qed.

Lemma count_total_lines_perm stmts stmts' :
  stmts ≡ₚ stmts' → _count_total_lines stmts = _count_total_lines stmts'.
Proof.
  induction 1 as [|s l l' _ IH|s s' l|l l' l'' _ IH _ IH'];
    rewrite ?count_total_lines_cons; lia.
Qed.

(** X5.  When every statement has its line numbers, the last line not before
    the first, the count is at least the number of statements. *)
Theorem count_total_lines_at_least_length (stmts : list stmt) :
  Forall (λ s, ∃ a b, stmt_span s = lines a b ∧ a ≤ b) stmts →
  Z.of_nat (length stmts) ≤ _count_total_lines stmts.
Proof.
  induction 1 as [|s stmts (a & b & Hs & Hab) _ IH]; [done|].
  rewrite count_total_lines_cons. unfold stmt_lines. rewrite Hs. simpl length.
  simpl. lia.
Qed.

Lemma count_total_lines_at_least_length_example :
  3 ≤ _count_total_lines example_class_body.
Proof.
  apply (count_total_lines_at_least_length example_class_body).
  repeat constructor; eexists _, _; (split; [reflexivity | lia]).
Defined.

Lemma filter_partition_perm {A} (p : A → bool) (l : list A) :
  l ≡ₚ List.filter p l ++ List.filter (λ x, negb (p x)) l.
Proof.
  induction l as [|x l IH]; simpl; [done|].
  destruct (p x); simpl.
  - by constructor.
  - by rewrite <- Permutation_middle, <- IH.
Qed.

(** X7.  The count of a placeholder is over the whole body as it was: the
    statements that stay before the placeholder (docstring, attributes) are
    counted with the ones that go. *)
Theorem placeholder_counts_kept_statements body kd kca :
  (∃ kept dropped,
     _compress_class body kd kca true
     = kept
       ++ [Placeholder
             ("<Content purposely removed: "
              +:+ str_of_int
                    (_count_total_lines kept + _count_total_lines dropped)
              +:+ " lines>")]
     ∧ body ≡ₚ kept ++ dropped)
  ∧ (∃ kept dropped,
       _compress_function body kd true
       = kept
         ++ [Placeholder
               ("<Content purposely removed: "
                +:+ str_of_int
                      (_count_total_lines kept + _count_total_lines dropped)
                +:+ " lines>")]
       ∧ body = kept ++ dropped).
Proof.
  split.
  - unfold _compress_class, _append_placeholder, placeholder_msg.
    destruct (kd && _has_docstring body) eqn:E.
    + apply andb_true_iff in E as [_ (d & rest & -> & Hd)%has_docstring_head].
      simpl. destruct kca.
      * rewrite drop_0.
        exists (d :: List.filter is_attribute rest),
          (List.filter (λ s, negb (is_attribute s)) rest).
        assert (d :: rest
                ≡ₚ (d :: List.filter is_attribute rest)
                   ++ List.filter (λ s, negb (is_attribute s)) rest) as Hp.
        { simpl. constructor. apply filter_partition_perm. }
        split; [|done].
        by rewrite <- count_total_lines_app, <- (count_total_lines_perm _ _ Hp).
      * exists [d], rest. split; [|done].
        by rewrite <- count_total_lines_app.
    + simpl. rewrite drop_0. destruct kca.
      * exists (List.filter is_attribute body),
          (List.filter (λ s, negb (is_attribute s)) body).
        pose proof (filter_partition_perm is_attribute body) as Hp.
        split; [|done].
        by rewrite <- count_total_lines_app, <- (count_total_lines_perm _ _ Hp).
      * exists [], body. split; [|done]. by rewrite <- count_total_lines_app.
  - unfold _compress_function, _append_placeholder, placeholder_msg.
    destruct (kd && _has_docstring body) eqn:E.
    + apply andb_true_iff in E as [_ (d & rest & -> & Hd)%has_docstring_head].
      exists [d], rest. split; [|done]. by rewrite <- count_total_lines_app.
    + exists [], body. split; [|done]. by rewrite <- count_total_lines_app.
Qed.

End AstFacts.

(** * Properties of the ranker *)

Module RankerFacts.
Import Ranker.

(** ** The score *)

Lemma content_length_zero file : content_length file = 0 ↔ content file = "".
Proof.
  unfold content_length. destruct (content file); simpl; split; done.
Qed.

(** The score in closed form. *)
Lemma calculate_importance_feature_eq file :
  calculate_importance_feature file
  = if decide (content file = "") then 0
    else
      10
      + (if decide (path_name (path file) ∈ important_file_names)
         then 1000 else 0)
      + Z.max 0 (60 - 10 * depth file)
      + 10 * Z.of_nat (size (imports file))
      + 5 * Z.of_nat (size (imported_in file))
      - line_count file `div` 50.
Proof.
  unfold calculate_importance_feature.
  destruct (decide (content_length file = 0)) as [H|H];
    destruct (decide (content file = "")) as [H'|H'];
    rewrite content_length_zero in H; try done.
  destruct (decide (_ ∈ _)); lia.
Qed.

Lemma scored_scored file : scored (scored file) = scored file.
Proof. done. Qed.

Lemma scored_same_but_importance file : same_but_importance file (scored file).
Proof. done. Qed.

(** ** [determine_importance] on the store *)

Lemma assign_importance_lists σ file : lists (assign_importance σ file) = lists σ.
Proof. done. Qed.

Lemma assign_importance_lookup σ file (i : nat) :
  files (assign_importance σ file) !! i
  = if decide (i = file) then scored <$> files σ !! i else files σ !! i.
Proof.
  unfold assign_importance. simpl. rewrite list_lookup_alter.
  destruct (decide (file = i)), (decide (i = file)); by subst.
Qed.

Lemma foldl_assign_importance_lists σ (l : list nat) :
  lists (foldl assign_importance σ l) = lists σ.
Proof. revert σ. induction l as [|x l IH]; intros σ; simpl; [done|]. by rewrite IH. Qed.

Lemma foldl_assign_importance_lookup σ (l : list nat) (i : nat) :
  files (foldl assign_importance σ l) !! i
  = if decide (i ∈ l) then scored <$> files σ !! i else files σ !! i.
Proof.
  revert σ. induction l as [|x l IH]; intros σ; cbn [foldl].
  - by rewrite decide_False by apply not_elem_of_nil.
  - rewrite IH, assign_importance_lookup.
    destruct (decide (i = x)) as [->|Hne].
    + rewrite (decide_True (P := x ∈ x :: l)) by apply list_elem_of_here.
      destruct (decide (x ∈ l)); [|done].
      destruct (files σ !! x); simpl; [|done]. by rewrite scored_scored.
    + destruct (decide (i ∈ l)) as [Hin|Hnin].
      * by rewrite decide_True by by apply list_elem_of_further.
      * rewrite decide_False; [done|]. by intros [?|?]%elem_of_cons.
Qed.

Lemma foldl_assign_importance_length σ (l : list nat) :
  length (files (foldl assign_importance σ l)) = length (files σ).
Proof.
  revert σ. induction l as [|x l IH]; intros σ; cbn [foldl]; [done|].
  rewrite IH. unfold assign_importance. simpl. apply length_alter.
Qed.

(** C2, as the code has it.  [determine_importance] gives every object of
    its list the score: 0 for an empty content; otherwise 10, plus 1000 when
    the last segment of the path, extension included, is one of [main.py],
    [app.py], [__main__.py], [core.py], plus [max(0, 60 - 10 * depth)] with
    [depth] the number of parts of the path, plus 10 for each element of
    [imports], plus 5 for each element of [imported_in], minus
    [line_count // 50] with [line_count] the number of line feeds plus 1. *)
Theorem determine_importance_score σ (files_loaded : nat) (l : list nat)
    (file : nat) (f : FileLoaded) :
  lists σ !! files_loaded = Some l →
  file ∈ l →
  files σ !! file = Some f →
  ∃ f',
    files (determine_importance σ files_loaded).1 !! file = Some f'
    ∧ same_but_importance f f'
    ∧ important_file_names = {[ "main.py"; "app.py"; "__main__.py"; "core.py" ]}
    ∧ depth f = Z.of_nat (length (parts (path f)))
    ∧ line_count f = count_newlines (content f) + 1
    ∧ importance f'
      = if decide (content f = "") then 0
        else
          10
          + (if decide (path_name (path f) ∈ important_file_names)
             then 1000 else 0)
          + Z.max 0 (60 - 10 * depth f)
          + 10 * Z.of_nat (size (imports f))
          + 5 * Z.of_nat (size (imported_in f))
          - line_count f `div` 50.
Proof.
  intros Hl Hin Hf. exists (scored f).
  unfold determine_importance. simpl. rewrite Hl. simpl.
  rewrite foldl_assign_importance_lookup, decide_True, Hf by done.
  split_and!; try done. apply calculate_importance_feature_eq.
Qed.

Lemma determine_importance_score_main_py :
  ∃ f',
    files (determine_importance example_store 0).1 !! 0%nat = Some f'
    ∧ same_but_importance main_py f'
    ∧ important_file_names = {[ "main.py"; "app.py"; "__main__.py"; "core.py" ]}
    ∧ depth main_py = 2
    ∧ line_count main_py = 2
    ∧ importance f' = 1060.
Proof.
  exact (determine_importance_score example_store 0 [1; 0; 1]%nat 0 main_py
           eq_refl
           (list_elem_of_further _ _ _ (list_elem_of_here _ _))
           eq_refl).
Defined.

(** C2 as stated fails: the names the bonus goes to carry the extension.  A
    file whose path is [main] has the leaf name [main], whichever way
    a leaf name is read off it, and gets no bonus; [src/main.py] gets it. *)
Lemma entry_point_names_have_extension :
  path_name (path main_no_extension) = "main"
  ∧ calculate_importance_feature main_no_extension = 60
  ∧ specified_importance main_no_extension = 1060
  ∧ calculate_importance_feature main_no_extension
    ≠ specified_importance main_no_extension
  ∧ calculate_importance_feature main_py = 1060
  ∧ specified_importance main_py = 60.
Proof. by vm_compute. Qed.

(** C6, as the code has it.  For a file whose content is not empty, one more
    element in [imported_in], all else the same, raises the score by 5. *)
Theorem imported_in_edge_adds_five (file : FileLoaded) (m : string) :
  content file ≠ "" →
  m ∉ imported_in file →
  calculate_importance_feature
    (with_imported_in file ({[ m ]} ∪ imported_in file))
  = calculate_importance_feature file + 5.
Proof.
  intros Hcontent Hm. rewrite !calculate_importance_feature_eq. simpl.
  rewrite !decide_False by done.
  rewrite size_union, size_singleton by set_solver.
  unfold depth, line_count. simpl.
  rewrite (decide_False (P := content file = "")) by done.
  destruct (decide (_ ∈ _)); lia.
Qed.

Lemma imported_in_edge_adds_five_util :
  calculate_importance_feature
    (with_imported_in util_py ({[ "src.other" ]} ∪ imported_in util_py))
  = calculate_importance_feature util_py + 5.
Proof.
  apply (imported_in_edge_adds_five util_py "src.other").
  - discriminate.
  - vm_compute. intros H. discriminate H.
Defined.

(** C6 as stated fails: the score of a file with an empty content is 0
    whatever imports it. *)
Lemma imported_in_edge_empty_content :
  ("src.main" ∉ imported_in empty_init)
  ∧ calculate_importance_feature empty_init = 0
  ∧ calculate_importance_feature
      (with_imported_in empty_init ({[ "src.main" ]} ∪ imported_in empty_init))
    = 0
  ∧ calculate_importance_feature
      (with_imported_in empty_init ({[ "src.main" ]} ∪ imported_in empty_init))
    ≠ calculate_importance_feature empty_init + 5.
Proof. split_and!; [set_solver | done | done | by vm_compute]. Qed.

(** C10.  [determine_importance] returns the reference it was given; the
    list it names, and every list, holds the references it held, in their
    order; every object keeps its [name], [path], [content], [imports] and
    [imported_in]. *)
Theorem determine_importance_frame σ (files_loaded : nat) :
  (determine_importance σ files_loaded).2 = files_loaded
  ∧ lists (determine_importance σ files_loaded).1 = lists σ
  ∧ Forall2 same_but_importance (files σ)
      (files (determine_importance σ files_loaded).1).
Proof.
  unfold determine_importance. simpl. split_and!; [done | |].
  - apply foldl_assign_importance_lists.
  - apply Forall2_same_length_lookup. split.
    + by rewrite foldl_assign_importance_length.
    + intros i f f' Hf Hf'.
      rewrite foldl_assign_importance_lookup, Hf in Hf'.
      destruct (decide (i ∈ _)); simplify_eq/=; [apply scored_same_but_importance|done].
Qed.


(** ** The stable sort *)

Section sort_reverse.
Context {A : Type} (key : A → Z).

Lemma insert_desc_elem_of (x y : A) (l : list A) :
  y ∈ insert_desc key x l ↔ y = x ∨ y ∈ l.
Proof.
  induction l as [|z l IH]; simpl.
  - rewrite list_elem_of_singleton, elem_of_nil. tauto.
  - destruct (decide (key x < key z)).
    + rewrite !elem_of_cons, IH. tauto.
    + rewrite !elem_of_cons. tauto.
Qed.

Lemma insert_desc_sorted (x : A) (l : list A) :
  StronglySorted (λ a b, key b ≤ key a) l →
  StronglySorted (λ a b, key b ≤ key a) (insert_desc key x l).
Proof.
  induction 1 as [|z l Hl IH Hz]; simpl.
  - repeat constructor.
  - destruct (decide (key x < key z)) as [Hlt|Hge].
    + constructor; [done|]. apply Forall_forall. intros y Hy.
      apply insert_desc_elem_of in Hy as [->|Hy]; [lia|].
      rewrite Forall_forall in Hz. by apply Hz.
    + constructor; [by constructor|]. constructor; [lia|].
      eapply Forall_impl; [exact Hz|]. simpl. intros. lia.
Qed.

Lemma sort_reverse_sorted (l : list A) :
  StronglySorted (λ a b, key b ≤ key a) (sort_reverse key l).
Proof.
  induction l as [|x l IH]; simpl; [constructor|]. by apply insert_desc_sorted.
Qed.

(** Insertion does not change the order among the elements of one key. *)
Lemma insert_desc_filter (k : Z) (x : A) (l : list A) :
  filter (λ a, key a = k) (insert_desc key x l)
  = filter (λ a, key a = k) (x :: l).
Proof.
  induction l as [|z l IH]; simpl; [done|].
  destruct (decide (key x < key z)) as [Hlt|Hge]; [|done].
  rewrite (filter_cons _ z), IH, !filter_cons.
  destruct (decide (key z = k)), (decide (key x = k)); try done. lia.
Qed.

Lemma sort_reverse_stable (k : Z) (l : list A) :
  filter (λ a, key a = k) (sort_reverse key l) = filter (λ a, key a = k) l.
Proof.
  induction l as [|x l IH]; simpl; [done|].
  by rewrite insert_desc_filter, !filter_cons, IH.
Qed.

Lemma insert_desc_perm (x : A) (l : list A) :
  insert_desc key x l ≡ₚ x :: l.
Proof.
  induction l as [|z l IH]; simpl; [done|].
  destruct (decide (key x < key z)); [|done].
  rewrite IH. apply Permutation_swap.
Qed.

Lemma sort_reverse_perm (l : list A) : sort_reverse key l ≡ₚ l.
Proof.
  induction l as [|x l IH]; simpl; [done|]. by rewrite insert_desc_perm, IH.
Qed.

End sort_reverse.

(** Sorting references by the key of what they name sorts what they name. *)
Lemma insert_desc_Forall2 {A B} (R : A → B → Prop) (key : A → Z)
    (key' : B → Z) x y l l' :
  (∀ a b, R a b → key a = key' b) →
  R x y → Forall2 R l l' →
  Forall2 R (insert_desc key x l) (insert_desc key' y l').
Proof.
  intros Hkey Hxy H. induction H as [|a b l l' Hab Hl IH]; simpl.
  - by repeat constructor.
  - rewrite (Hkey _ _ Hxy), (Hkey _ _ Hab).
    destruct (decide (key' y < key' b)).
    + by constructor.
    + constructor; [done|]. by constructor.
Qed.

Lemma sort_reverse_Forall2 {A B} (R : A → B → Prop) (key : A → Z)
    (key' : B → Z) l l' :
  (∀ a b, R a b → key a = key' b) →
  Forall2 R l l' →
  Forall2 R (sort_reverse key l) (sort_reverse key' l').
Proof.
  intros Hkey H. induction H as [|a b l l' Hab _ IH]; simpl; [constructor|].
  by apply insert_desc_Forall2.
Qed.


(** ** [create_file_loaded_objects] on the store *)

Lemma insert_alter_same {A} (f : A → A) (i : nat) (x : A) (l : list A) :
  <[i:=x]> (alter f i l) = <[i:=x]> l.
Proof.
  revert i. induction l as [|y l IH]; intros [|i]; simpl; try done.
  by rewrite IH.
Qed.

Lemma file_loaded_of_pair self file_path content :
  file_loaded_of self (file_path, content)
  = module_str ← path_to_module_str (truediv (_base_module self) file_path);
    imports ←
      find_modules_directly_imported_by (_import_graph self) module_str;
    imported_in ←
      find_modules_that_directly_import (_import_graph self) module_str;
    Some (MkFileLoaded module_str file_path content (-1) imports imported_in).
Proof. done. Qed.

(** The loop allocates the records of the entries one after the other and
    appends their references to the list. *)
Lemma load_files_spec self σ (lst : nat) items (pre : list nat) :
  lists σ !! lst = Some pre →
  load_files self σ lst items
  = loaded ← mapM (file_loaded_of self) items;
    Some
      (MkStore (files σ ++ loaded)
         (<[lst := pre ++ seq (length (files σ)) (length loaded)]> (lists σ))).
Proof.
  revert σ pre. induction items as [|[file_path content] items IH];
    intros σ pre Hpre.
  - simpl. rewrite !app_nil_r, list_insert_id by done. destruct σ; reflexivity.
  - change (mapM (file_loaded_of self) ((file_path, content) :: items))
      with (y ← file_loaded_of self (file_path, content);
            k ← mapM (file_loaded_of self) items; mret (y :: k)).
    rewrite (file_loaded_of_pair self file_path content). cbn [load_files].
    destruct (path_to_module_str _) as [module_str|]; [|done].
    cbn [mbind option_bind].
    destruct (find_modules_directly_imported_by _ _) as [imports|]; [|done].
    cbn [mbind option_bind].
    destruct (find_modules_that_directly_import _ _) as [imported_in|];
      [|done].
    cbn [mbind option_bind]. unfold new_file, list_append. cbn [files lists].
    set (f := MkFileLoaded _ _ _ _ _ _).
    erewrite IH; last first.
    { cbn [lists]. rewrite list_lookup_alter, decide_True by done.
      by rewrite Hpre. }
    destruct (mapM _ items) as [loaded|]; [|done].
    cbn [mbind option_bind mret option_ret files lists].
    f_equal. f_equal.
    + by rewrite <- app_assoc.
    + rewrite insert_alter_same, length_app, <- app_assoc. simpl.
      by rewrite Nat.add_1_r.
Qed.

Lemma foldl_assign_importance_seq (F S : list FileLoaded) L :
  files
    (foldl assign_importance (MkStore (F ++ S) L) (seq (length F) (length S)))
  = F ++ (scored <$> S).
Proof.
  apply list_eq. intros i. rewrite foldl_assign_importance_lookup. simpl.
  destruct (decide (i ∈ seq (length F) (length S))) as [Hin|Hnin].
  - apply elem_of_seq in Hin.
    rewrite !lookup_app_r by lia. by rewrite list_lookup_fmap.
  - rewrite elem_of_seq in Hnin.
    destruct (decide (i < length F)%nat).
    + by rewrite !lookup_app_l by done.
    + rewrite !lookup_ge_None_2; [done| |];
        rewrite length_app, ?length_fmap; lia.
Qed.

Lemma seq_names (F S : list FileLoaded) :
  Forall2 (λ (r : nat) f, (F ++ S) !! r = Some f) (seq (length F) (length S)) S.
Proof.
  revert F. induction S as [|f S IH]; intros F; simpl; constructor.
  - by rewrite list_lookup_middle.
  - specialize (IH (F ++ [f])). rewrite length_app, <- app_assoc in IH.
    simpl in IH. by rewrite Nat.add_1_r in IH.
Qed.

Lemma omap_names {A B} (g : A → option B) (rs : list A) (fs : list B) :
  Forall2 (λ r f, g r = Some f) rs fs → omap g rs = fs.
Proof.
  induction 1 as [|r f rs fs Hr _ IH]; simpl; [done|].
  rewrite Hr. f_equal. exact IH.
Qed.

(** What [create_file_loaded_objects] returns: the records of the entries
    of [file_contents], scored, in the order the stable sort gives them. *)
Lemma create_file_loaded_objects_spec self σ loaded :
  mapM (file_loaded_of self) (_file_contents self) = Some loaded →
  ∃ σ',
    create_file_loaded_objects self σ = Some (σ', length (lists σ))
    ∧ records σ' (length (lists σ))
      = sort_reverse importance (scored <$> loaded).
Proof.
  intros Hloaded. unfold create_file_loaded_objects, new_list. simpl.
  erewrite load_files_spec; last first.
  { simpl. by rewrite list_lookup_middle. }
  rewrite Hloaded. simpl.
  rewrite (insert_app_r_alt (lists σ)), Nat.sub_diag by done. simpl.
  eexists. split; [done|].
  unfold records, list_sort_by_importance. simpl.
  rewrite lookup_app_r, Nat.sub_diag by done. simpl.
  rewrite foldl_assign_importance_lists. cbn [lists].
  rewrite list_lookup_alter, decide_True by done.
  rewrite list_lookup_middle by done. simpl.
  rewrite foldl_assign_importance_seq.
  apply omap_names.
  apply sort_reverse_Forall2.
  - intros r f Hr. unfold importance_of. simpl.
    rewrite foldl_assign_importance_seq. by rewrite Hr.
  - rewrite <- (length_fmap scored loaded). apply seq_names.
Qed.

Lemma mapM_file_loaded_of self items :
  Forall (loadable self) items →
  is_Some (mapM (file_loaded_of self) items).
Proof.
  intros H. apply mapM_is_Some. eapply Forall_impl; [exact H|].
  intros [file_path content] (module_str & Hm & [imports Hi] & [imported Hj]).
  simpl in Hm. unfold file_loaded_of. simpl. rewrite Hm. simpl.
  rewrite Hi. simpl. rewrite Hj. by eexists.
Qed.

(** C7.  When nothing raises (every path, joined to the base module, has
    a module string, and the graph has each of these modules),
    [create_file_loaded_objects] returns a list whose records are those of
    the entries of [file_contents], scored ([loaded] holds them in the order
    of [file_contents]): they come by descending [importance], and those of
    one [importance] come in the order of [file_contents]. *)
Theorem ranking_sorted_and_stable self σ :
  Forall (loadable self) (_file_contents self) →
  ∃ σ' (files_loaded : nat) loaded,
    create_file_loaded_objects self σ = Some (σ', files_loaded)
    ∧ mapM (file_loaded_of self) (_file_contents self) = Some loaded
    ∧ records σ' files_loaded ≡ₚ scored <$> loaded
    ∧ StronglySorted (λ a b, importance b ≤ importance a)
        (records σ' files_loaded)
    ∧ ∀ k,
        filter (λ f, importance f = k) (records σ' files_loaded)
        = filter (λ f, importance f = k) (scored <$> loaded).
Proof.
  intros [loaded Hloaded]%mapM_file_loaded_of.
  destruct (create_file_loaded_objects_spec self σ loaded Hloaded)
    as (σ' & Hcreate & Hrecords).
  exists σ', (length (lists σ)), loaded. rewrite Hrecords.
  split_and!; [done | done | apply sort_reverse_perm
              | apply sort_reverse_sorted |].
  intros k. apply sort_reverse_stable.
Qed.


Lemma ranking_sorted_and_stable_example :
  ∃ σ' (files_loaded : nat) loaded,
    create_file_loaded_objects example_compressor example_store
    = Some (σ', files_loaded)
    ∧ mapM (file_loaded_of example_compressor)
        (_file_contents example_compressor) = Some loaded
    ∧ records σ' files_loaded ≡ₚ scored <$> loaded
    ∧ StronglySorted (λ a b, importance b ≤ importance a)
        (records σ' files_loaded)
    ∧ ∀ k,
        filter (λ f, importance f = k) (records σ' files_loaded)
        = filter (λ f, importance f = k) (scored <$> loaded).
Proof.
  apply (ranking_sorted_and_stable example_compressor example_store).
  repeat (apply List.Forall_cons; [|]); [| | | | |apply List.Forall_nil].
  - exists "src.util". vm_compute. split_and!; [done|by eexists..].
  - exists "src.a". vm_compute. split_and!; [done|by eexists..].
  - exists "src". vm_compute. split_and!; [done|by eexists..].
  - exists "src.b". vm_compute. split_and!; [done|by eexists..].
  - exists "src.main". vm_compute. split_and!; [done|by eexists..].
Defined.

(** The ranking of the example: [a.py] and [b.py] tie at 60 and keep the
    order of [file_contents]. *)
Lemma ranking_example :
  (λ '(σ', files_loaded),
     (List.map (λ f, (name f, importance f)) (records σ' files_loaded),
      files_loaded))
  <$> create_file_loaded_objects example_compressor example_store
  = Some
      ([ ("src.main", 1070); ("src.util", 65); ("src.a", 60); ("src.b", 60);
         ("src", 0) ], 1%nat).
Proof. by vm_compute. Qed.


(** ** [path_to_module_str] *)

Lemma string_length_app (s1 s2 : string) :
  String.length (s1 +:+ s2) = (String.length s1 + String.length s2)%nat.
Proof. induction s1 as [|a s1 IH]; simpl; [done|]. by rewrite IH. Qed.

Lemma substring_app_l (s1 s2 : string) :
  String.substring 0 (String.length s1) (s1 +:+ s2) = s1.
Proof.
  induction s1 as [|a s1 IH]; simpl; [by destruct s2|]. by rewrite IH.
Qed.

Lemma substring_all (s : string) :
  String.substring 0 (String.length s) s = s.
Proof. induction s as [|a s IH]; simpl; [done|]. by rewrite IH. Qed.

Lemma substring_app_r (s1 s2 : string) :
  String.substring (String.length s1) (String.length s2) (s1 +:+ s2) = s2.
Proof.
  induction s1 as [|a s1 IH]; simpl; [apply substring_all | done].
Qed.

Lemma rfind_last (c : ascii) (s1 s2 : string) :
  rfind c s2 = None →
  rfind c (s1 +:+ String c s2) = Some (String.length s1).
Proof.
  intros H. induction s1 as [|a s1 IH]; simpl.
  - by rewrite H, decide_True.
  - by rewrite IH.
Qed.

Lemma suffix_of_stem_ext (stem ext : string) :
  stem ≠ "" → ext ≠ "" → rfind "." ext = None →
  suffix (stem +:+ "." +:+ ext) = "." +:+ ext.
Proof.
  intros Hstem Hext Hdot. unfold suffix.
  change (stem +:+ "." +:+ ext) with (stem +:+ String "." ext).
  rewrite rfind_last by done.
  rewrite string_length_app. simpl String.length.
  rewrite decide_True; last first.
  { destruct stem; [done|]. destruct ext; [done|]. simpl. lia. }
  replace (String.length stem + S (String.length ext) - String.length stem)%nat
    with (String.length (String "." ext)) by (simpl; lia).
  apply substring_app_r.
Qed.

Lemma with_suffix_empty_snoc a dir name :
  name ≠ "" →
  with_suffix_empty (MkPath a (dir ++ [name]))
  = Some
      (MkPath a
         (dir
          ++ [if decide (suffix name = "") then name
              else String.substring 0
                     (String.length name - String.length (suffix name))
                     name])).
Proof.
  intros Hname. unfold with_suffix_empty, path_name. simpl.
  rewrite last_snoc. simpl. rewrite decide_False by done.
  by rewrite removelast_last.
Qed.

Lemma parts_snoc a dir n :
  last (parts (MkPath a (dir ++ [n]))) = Some n
  ∧ removelast (parts (MkPath a (dir ++ [n]))) = parts (MkPath a dir).
Proof.
  unfold parts. simpl. destruct (decide (a = "")).
  - by rewrite last_snoc, removelast_last.
  - rewrite (app_comm_cons dir [n] a), last_snoc.
    by rewrite (removelast_last (a :: dir)).
Qed.

Lemma path_to_module_str_of_stem a dir name stem :
  name ≠ "" →
  (if decide (suffix name = "") then name
   else String.substring 0
          (String.length name - String.length (suffix name)) name) = stem →
  path_to_module_str (MkPath a (dir ++ [name]))
  = Some
      (String.concat "."
         (parts
            (MkPath a
               (if decide (stem = "__init__") then dir else dir ++ [stem])))).
Proof.
  intros Hname Hstem. unfold path_to_module_str.
  rewrite with_suffix_empty_snoc, Hstem by done. simpl.
  destruct (parts_snoc a dir stem) as [-> Hremove]. simpl.
  destruct (decide (stem = "__init__")); by rewrite ?Hremove.
Qed.

(** X8.  For a path whose last segment is [stem.ext], with a stem that is
    not empty and an extension that is not empty and has no dot, the module
    string is the parts of the path joined by dots, with [stem] for the last
    segment; when the stem is [__init__] the last segment is left out, so
    the module is named after its directory.  Only the last extension goes:
    the stem may have dots. *)
Theorem path_to_module_str_drops_extension a dir stem ext :
  stem ≠ "" → ext ≠ "" → rfind "." ext = None →
  path_to_module_str (MkPath a (dir ++ [stem +:+ "." +:+ ext]))
  = Some
      (String.concat "."
         (parts
            (MkPath a
               (if decide (stem = "__init__") then dir else dir ++ [stem])))).
Proof.
  intros Hstem Hext Hdot. apply path_to_module_str_of_stem.
  - by destruct stem.
  - rewrite suffix_of_stem_ext by done.
    rewrite decide_False by done.
    rewrite string_length_app.
    replace (String.length stem + String.length ("." +:+ ext)
             - String.length ("." +:+ ext))%nat
      with (String.length stem) by lia.
    apply substring_app_l.
Qed.

Lemma path_to_module_str_drops_extension_examples :
  path_to_module_str (MkPath "" ["src"; "pkg"; "__init__.py"]) = Some "src.pkg"
  ∧ path_to_module_str (MkPath "" ["src"; "archive.tar.gz"])
    = Some "src.archive.tar".
Proof.
  split.
  - exact (path_to_module_str_drops_extension "" ["src"; "pkg"] "__init__"
             "py" ltac:(discriminate) ltac:(discriminate) eq_refl).
  - exact (path_to_module_str_drops_extension "" ["src"] "archive.tar" "gz"
             ltac:(discriminate) ltac:(discriminate) eq_refl).
Defined.

Lemma suffix_without_dot name : rfind "." name = None → suffix name = "".
Proof. unfold suffix. by intros ->. Qed.

Lemma suffix_leading_dot rest :
  rfind "." rest = None → suffix ("." +:+ rest) = "".
Proof.
  intros H. unfold suffix.
  change ("." +:+ rest) with (String "." rest). cbn [rfind]. rewrite H.
  by rewrite decide_True.
Qed.

(** X9.  A last segment without a dot, or whose only dot is its first
    character (a hidden file), is kept whole in the module string. *)
Theorem path_to_module_str_without_extension a dir name :
  name ≠ "" →
  rfind "." name = None
  ∨ (∃ rest, name = "." +:+ rest ∧ rfind "." rest = None) →
  path_to_module_str (MkPath a (dir ++ [name]))
  = Some
      (String.concat "."
         (parts
            (MkPath a
               (if decide (name = "__init__") then dir else dir ++ [name])))).
Proof.
  intros Hname Hdot. apply path_to_module_str_of_stem; [done|].
  rewrite decide_True; [done|].
  destruct Hdot as [H|(rest & -> & H)];
    [by apply suffix_without_dot | by apply suffix_leading_dot].
Qed.

Lemma path_to_module_str_without_extension_examples :
  path_to_module_str (MkPath "" ["src"; "Makefile"]) = Some "src.Makefile"
  ∧ path_to_module_str (MkPath "" ["src"; ".env"]) = Some "src..env".
Proof.
  split.
  - exact (path_to_module_str_without_extension "" ["src"] "Makefile"
             ltac:(discriminate) (or_introl eq_refl)).
  - exact (path_to_module_str_without_extension "" ["src"] ".env"
             ltac:(discriminate)
             (or_intror (ex_intro _ "env" (conj eq_refl eq_refl)))).
Defined.

(** X10.  [path_to_module_str] raises exactly on a path with an empty name
    (no segment after the anchor: the empty path, a root), where
    [with_suffix] raises; on every other path it returns. *)
Theorem path_to_module_str_raises_iff (p : Path) :
  path_to_module_str p = None ↔ path_name p = "".
Proof.
  unfold path_to_module_str, with_suffix_empty.
  destruct (decide (path_name p = "")) as [H|H]; simpl; [done|].
  split; [|done]. intros Hnone. exfalso. revert Hnone.
  unfold parts. simpl.
  destruct (decide (anchor p = "")).
  - by rewrite last_snoc.
  - by rewrite (app_comm_cons _ _ (anchor p)), last_snoc.
Qed.



(** ** More on [determine_importance] *)

Lemma store_eq (σ σ' : store) :
  files σ = files σ' → lists σ = lists σ' → σ = σ'.
Proof. destruct σ, σ'. simpl. by intros -> ->. Qed.

(** X11.  [determine_importance] is idempotent: the score does not read
    [importance], so a second call on the same list leaves the store of the
    first. *)
Theorem determine_importance_idempotent σ (files_loaded : nat) :
  (determine_importance (determine_importance σ files_loaded).1 files_loaded).1
  = (determine_importance σ files_loaded).1.
Proof.
  unfold determine_importance. simpl.
  rewrite foldl_assign_importance_lists.
  apply store_eq.
  - apply list_eq. intros i. rewrite !foldl_assign_importance_lookup.
    destruct (decide (i ∈ _)); [|done].
    destruct (files σ !! i); simpl; [|done]. by rewrite scored_scored.
  - by rewrite !foldl_assign_importance_lists.
Qed.

(** X12.  [determine_importance] writes to the objects of its list only: an
    object the list does not refer to keeps every field, [importance]
    too. *)
Theorem determine_importance_others_untouched σ (files_loaded file : nat) :
  file ∉ default [] (lists σ !! files_loaded) →
  files (determine_importance σ files_loaded).1 !! file = files σ !! file.
Proof.
  intros Hfile. unfold determine_importance. simpl.
  by rewrite foldl_assign_importance_lookup, decide_False.
Qed.

Lemma determine_importance_others_untouched_example :
  files
    (determine_importance (MkStore [main_py; util_py] [[1%nat]]) 0).1
  !! 0%nat
  = Some main_py.
Proof.
  apply (determine_importance_others_untouched
           (MkStore [main_py; util_py] [[1%nat]]) 0 0).
  simpl. intros H. apply list_elem_of_singleton in H. discriminate H.
Defined.

(** ** More on the score *)

Lemma count_newlines_nonneg s : 0 ≤ count_newlines s.
Proof.
  induction s as [|a s IH]; simpl; [done|]. destruct (decide _); lia.
Qed.

(** X13.  The entry-point bonus is exactly 1000: of two files with the same
    content, not empty, the same number of path parts, as many imports and
    as many importers, the one whose name is in [important_file_names]
    scores 1000 more than the one whose name is not. *)
Theorem entry_point_bonus (f g : FileLoaded) :
  content f ≠ "" →
  content g = content f →
  length (parts (path g)) = length (parts (path f)) →
  size (imports g) = size (imports f) →
  size (imported_in g) = size (imported_in f) →
  path_name (path f) ∈ important_file_names →
  path_name (path g) ∉ important_file_names →
  calculate_importance_feature f = calculate_importance_feature g + 1000.
Proof.
  intros Hf Hc Hd Hi Hj Hin Hnin.
  rewrite !calculate_importance_feature_eq.
  unfold depth, line_count. rewrite Hc, Hd, Hi, Hj.
  rewrite !(decide_False (P := content f = "")) by done.
  destruct (decide (path_name (path f) ∈ important_file_names)); [|done].
  destruct (decide (path_name (path g) ∈ important_file_names)); [done|].
  lia.
Qed.

Lemma entry_point_bonus_example :
  calculate_importance_feature
    (MkFileLoaded "src.main" (MkPath "" ["src"; "main.py"]) "x = 1" (-1) ∅ ∅)
  = calculate_importance_feature
      (MkFileLoaded "src.util" (MkPath "" ["src"; "util.py"]) "x = 1" (-1) ∅ ∅)
    + 1000.
Proof.
  apply entry_point_bonus; try reflexivity.
  - discriminate.
  - vm_compute. intros H. discriminate H.
Defined.

(** X14.  The score is at most 1070 plus 10 for each import and 5 for each
    importer, and it is not negative for a content with fewer than 549 line
    feeds: only the line count can take it below zero. *)
Theorem score_bounds (file : FileLoaded) :
  calculate_importance_feature file
  ≤ 1070 + 10 * Z.of_nat (size (imports file))
    + 5 * Z.of_nat (size (imported_in file))
  ∧ (count_newlines (content file) < 549 →
     0 ≤ calculate_importance_feature file).
Proof.
  rewrite calculate_importance_feature_eq.
  pose proof (count_newlines_nonneg (content file)) as Hn.
  unfold depth, line_count.
  assert (0 ≤ (count_newlines (content file) + 1) `div` 50) as Hdiv
    by (apply Z.div_pos; lia).
  destruct (decide (content file = "")); [lia|].
  split.
  - destruct (decide (_ ∈ _)); lia.
  - intros Hlt.
    assert ((count_newlines (content file) + 1) `div` 50 < 11) as Hle.
    { apply Z.div_lt_upper_bound; lia. }
    destruct (decide (_ ∈ _)); lia.
Qed.

Lemma score_bounds_example :
  0 ≤ calculate_importance_feature util_py.
Proof.
  apply (score_bounds util_py). vm_compute. reflexivity.
Defined.


(** ** More on [create_file_loaded_objects] *)

(** The store [create_file_loaded_objects] leaves. *)
Lemma create_file_loaded_objects_store self σ loaded :
  mapM (file_loaded_of self) (_file_contents self) = Some loaded →
  ∃ refs,
    create_file_loaded_objects self σ
    = Some
        (MkStore (files σ ++ (scored <$> loaded)) (lists σ ++ [refs]),
         length (lists σ))
    ∧ refs ≡ₚ seq (length (files σ)) (length loaded).
Proof.
  intros Hloaded. unfold create_file_loaded_objects, new_list. simpl.
  erewrite load_files_spec; last first.
  { simpl. by rewrite list_lookup_middle. }
  rewrite Hloaded. simpl.
  rewrite (insert_app_r_alt (lists σ)), Nat.sub_diag by done. simpl.
  rewrite list_lookup_middle by done. simpl.
  eexists. split.
  - f_equal. f_equal. apply store_eq; simpl.
    + apply foldl_assign_importance_seq.
    + rewrite foldl_assign_importance_lists. simpl.
      rewrite alter_app_r_alt, Nat.sub_diag by done. reflexivity.
  - apply sort_reverse_perm.
Qed.

Lemma create_file_loaded_objects_raises self σ :
  mapM (file_loaded_of self) (_file_contents self) = None →
  create_file_loaded_objects self σ = None.
Proof.
  intros Hnone. unfold create_file_loaded_objects, new_list. simpl.
  erewrite load_files_spec; last first.
  { simpl. by rewrite list_lookup_middle. }
  by rewrite Hnone.
Qed.

Lemma file_loaded_of_None self item :
  file_loaded_of self item = None
  ↔ path_name (truediv (_base_module self) item.1) = ""
    ∨ ∃ module_str,
        path_to_module_str (truediv (_base_module self) item.1)
        = Some module_str
        ∧ (find_modules_directly_imported_by (_import_graph self) module_str
           = None
           ∨ find_modules_that_directly_import (_import_graph self) module_str
             = None).
Proof.
  unfold file_loaded_of.
  destruct (path_to_module_str (truediv (_base_module self) item.1))
    as [module_str|] eqn:Hm; simpl.
  - assert (path_name (truediv (_base_module self) item.1) ≠ "") as Hname.
    { intros Hname. revert Hm.
      unfold path_to_module_str, with_suffix_empty.
      by rewrite decide_True by done. }
    destruct (find_modules_directly_imported_by _ module_str)
      as [imports|] eqn:Hi; simpl.
    + destruct (find_modules_that_directly_import _ module_str)
        as [imported_in|] eqn:Hj; simpl.
      * split; [done|]. intros [?|(m & [= <-] & [?|?])]; congruence.
      * split; [|done]. intros _. right. exists module_str. auto.
    + split; [|done]. intros _. right. exists module_str. auto.
  - split; [|done]. intros _. left. revert Hm.
    unfold path_to_module_str, with_suffix_empty.
    destruct (decide (path_name (truediv (_base_module self) item.1) = ""))
      as [H|H]; simpl; [done|].
    intros Hnone. exfalso. revert Hnone.
    unfold parts. simpl.
    destruct (decide (anchor (truediv (_base_module self) item.1) = "")).
    + by rewrite last_snoc.
    + by rewrite (app_comm_cons _ _ (anchor _)), last_snoc.
Qed.


(** X15.  [create_file_loaded_objects] raises exactly when, for some entry
    of [file_contents], the path joined to the base module has an empty
    name ([with_suffix] raises [ValueError]) or its module is not in the
    graph (a method of the graph raises [ModuleNotPresent]); then no list is
    returned, whatever the other files are. *)
Theorem create_file_loaded_objects_raises_iff self σ :
  create_file_loaded_objects self σ = None
  ↔ Exists
      (λ item : Path * string,
         path_name (truediv (_base_module self) item.1) = ""
         ∨ ∃ module_str,
             path_to_module_str (truediv (_base_module self) item.1)
             = Some module_str
             ∧ (find_modules_directly_imported_by (_import_graph self)
                  module_str = None
                ∨ find_modules_that_directly_import (_import_graph self)
                    module_str = None))
      (_file_contents self).
Proof.
  split.
  - intros Hnone.
    destruct (mapM (file_loaded_of self) (_file_contents self))
      as [loaded|] eqn:E.
    + destruct (create_file_loaded_objects_store self σ loaded E)
        as (refs & Hsome & _). congruence.
    + apply mapM_None in E. eapply Exists_impl; [exact E|].
      intros item. apply file_loaded_of_None.
  - intros H. apply create_file_loaded_objects_raises, mapM_None.
    eapply Exists_impl; [exact H|]. intros item. apply file_loaded_of_None.
Qed.

(** X16.  [create_file_loaded_objects] touches nothing that was there: the
    objects and the lists of the store are as before, the list it returns
    is a new one, and that list refers to the new objects, as many as
    [file_contents] has entries, each once. *)
Theorem create_file_loaded_objects_allocates self σ σ' (files_loaded : nat) :
  create_file_loaded_objects self σ = Some (σ', files_loaded) →
  files_loaded = length (lists σ)
  ∧ ∃ new_files refs,
      files σ' = files σ ++ new_files
      ∧ lists σ' = lists σ ++ [refs]
      ∧ length new_files = length (_file_contents self)
      ∧ refs ≡ₚ seq (length (files σ)) (length (_file_contents self)).
Proof.
  intros Hcreate.
  destruct (mapM (file_loaded_of self) (_file_contents self))
    as [loaded|] eqn:E.
  - destruct (create_file_loaded_objects_store self σ loaded E)
      as (refs & Hsome & Hperm).
    rewrite Hsome in Hcreate. injection Hcreate as <- <-.
    apply mapM_Some, Forall2_length in E.
    split; [done|]. exists (scored <$> loaded), refs. simpl.
    rewrite length_fmap, E. by split_and!.
  - by rewrite (create_file_loaded_objects_raises self σ E) in Hcreate.
Qed.

Lemma create_file_loaded_objects_allocates_example :
  ∃ σ',
    create_file_loaded_objects example_compressor example_store
    = Some (σ', 1%nat)
    ∧ ∃ new_files refs,
        files σ' = files example_store ++ new_files
        ∧ lists σ' = lists example_store ++ [refs]
        ∧ length new_files = 5%nat
        ∧ refs ≡ₚ seq 2 5.
Proof.
  destruct (create_file_loaded_objects example_compressor example_store)
    as [[σ' files_loaded]|] eqn:E; [|by vm_compute in E].
  pose proof (create_file_loaded_objects_allocates _ _ _ _ E) as [-> H].
  by exists σ'.
Defined.

(** X17.  Every record of the returned list is the record of an entry of
    [file_contents]: its [path] and [content] are the entry's, its [name]
    is the module string of the path joined to the base module, its
    [imports] and [imported_in] are what the graph gives for that name, and
    its [importance] is the score of its own fields; there are as many
    records as entries. *)
Theorem create_file_loaded_objects_records self σ σ' (files_loaded : nat) :
  create_file_loaded_objects self σ = Some (σ', files_loaded) →
  length (records σ' files_loaded) = length (_file_contents self)
  ∧ Forall
      (λ f,
         (path f, content f) ∈ _file_contents self
         ∧ path_to_module_str (truediv (_base_module self) (path f))
           = Some (name f)
         ∧ find_modules_directly_imported_by (_import_graph self) (name f)
           = Some (imports f)
         ∧ find_modules_that_directly_import (_import_graph self) (name f)
           = Some (imported_in f)
         ∧ importance f = calculate_importance_feature f)
      (records σ' files_loaded).
Proof.
  intros Hcreate.
  destruct (mapM (file_loaded_of self) (_file_contents self))
    as [loaded|] eqn:E; last first.
  { by rewrite (create_file_loaded_objects_raises self σ E) in Hcreate. }
  destruct (create_file_loaded_objects_spec self σ loaded E)
    as (σ'' & Hsome & Hrecords).
  rewrite Hsome in Hcreate. injection Hcreate as <- <-.
  rewrite Hrecords. apply mapM_Some in E. split.
  - rewrite sort_reverse_perm, length_fmap. symmetry.
    by eapply Forall2_length.
  - rewrite sort_reverse_perm. apply Forall_fmap.
    clear Hsome Hrecords.
    induction E as [|[file_path content] f items loaded Hf _ IH];
      constructor.
    + unfold file_loaded_of in Hf. simpl in Hf.
      destruct (path_to_module_str _) as [module_str|] eqn:Hm;
        simplify_eq/=.
      destruct (find_modules_directly_imported_by _ _) as [imports|] eqn:Hi;
        simplify_eq/=.
      destruct (find_modules_that_directly_import _ _) as [imported_in|]
        eqn:Hj; simplify_eq/=.
      split_and!; try done. apply list_elem_of_here.
    + eapply Forall_impl; [exact IH|]. simpl.
      intros f' (Hin & ?). split; [|done]. by apply list_elem_of_further.
Qed.

Lemma create_file_loaded_objects_records_example :
  ∃ σ' (files_loaded : nat),
    create_file_loaded_objects example_compressor example_store
    = Some (σ', files_loaded)
    ∧ length (records σ' files_loaded) = 5%nat
    ∧ Forall
        (λ f,
           (path f, content f) ∈ _file_contents example_compressor
           ∧ path_to_module_str (truediv (MkPath "" ["src"]) (path f))
             = Some (name f)
           ∧ find_modules_directly_imported_by example_graph (name f)
             = Some (imports f)
           ∧ find_modules_that_directly_import example_graph (name f)
             = Some (imported_in f)
           ∧ importance f = calculate_importance_feature f)
        (records σ' files_loaded).
Proof.
  destruct (create_file_loaded_objects example_compressor example_store)
    as [[σ' files_loaded]|] eqn:E; [|by vm_compute in E].
  exists σ', files_loaded. split; [done|].
  apply (create_file_loaded_objects_records _ _ _ _ E).
Defined.


(** ** [report_file_contents] *)






Section report_file_contents_facts.

Variable E : Type.
Variable str_of_path : Path → string.
Variable percent_2f : Z → Z → string.



End report_file_contents_facts.


End RankerFacts.

(** * Properties of the policy review *)

Module PoliciesFacts.
Import Policies.
Local Open Scope nat_scope.

(** ** The [str] methods *)

Lemma prefix_singleton (c a : char) (s : str) :
  [c] `prefix_of` a :: s ↔ c = a.
Proof.
  split.
  - apply prefix_cons_inv_1.
  - intros ->. apply prefix_cons, prefix_nil.
Qed.

(** Replacing a single character goes character by character. *)
Lemma str_replace_char (c : char) (new s : str) :
  str_replace [c] new s
  = flat_map (λ a, if decide (a = c) then new else [a]) s.
Proof.
  unfold str_replace. induction s as [|a s IH]; simpl; [done|].
  destruct (decide ([c] `prefix_of` a :: s)) as [H|H];
    rewrite prefix_singleton in H.
  - subst a. by rewrite decide_True, IH.
  - rewrite decide_False by congruence. by rewrite IH.
Qed.

Lemma lstrip_length chars s : length (lstrip chars s) ≤ length s.
Proof.
  induction s as [|c s IH]; simpl; [done|]. destruct (chars c); simpl; lia.
Qed.

Lemma strip_length chars s : length (strip chars s) ≤ length s.
Proof.
  unfold strip, rstrip. rewrite length_rev.
  etrans; [apply lstrip_length|]. rewrite length_rev. apply lstrip_length.
Qed.

Lemma lstrip_none chars s :
  Forall (λ c, chars c = false) s → lstrip chars s = s.
Proof. destruct 1 as [|c s Hc _]; simpl; [done|]. by rewrite Hc. Qed.

Lemma strip_none chars s :
  Forall (λ c, chars c = false) s → strip chars s = s.
Proof.
  intros H. unfold strip, rstrip. rewrite (lstrip_none _ s H).
  rewrite lstrip_none, rev_involutive; [done|].
  by apply Forall_rev.
Qed.

Lemma flat_map_length_le {A B} (f : A → list B) (l : list A) :
  (∀ x, length (f x) ≤ 1) → length (flat_map f l) ≤ length l.
Proof.
  intros Hf. induction l as [|x l IH]; simpl; [done|].
  rewrite length_app. specialize (Hf x). lia.
Qed.

Lemma flat_map_id {A} (f : A → list A) (l : list A) :
  Forall (λ x, f x = [x]) l → flat_map f l = l.
Proof. induction 1 as [|x l Hx _ IH]; simpl; [done|]. by rewrite Hx, IH. Qed.

Lemma str_replace_char_length c new s :
  length new ≤ 1 → length (str_replace [c] new s) ≤ length s.
Proof.
  intros Hnew. rewrite str_replace_char. apply flat_map_length_le.
  intros a. destruct (decide (a = c)); simpl; lia.
Qed.

Lemma str_replace_char_absent c new s :
  c ∉ s → str_replace [c] new s = s.
Proof.
  intros Hc. rewrite str_replace_char. apply flat_map_id, Forall_forall.
  intros a Ha. rewrite decide_False; [done|]. by intros ->.
Qed.

(** ** [_sanitize_property_name] *)

Lemma allowed_not_special (c : char) :
  is_allowed c = true →
  is_space c = false ∧ c ≠ chr "." ∧ c ≠ chr "," ∧ c ≠ chr " "
  ∧ c ≠ chr "'" ∧ c ≠ chr "034".
Proof.
  unfold is_allowed, is_space. intros H.
  assert (97 ≤ c ≤ 122 ∨ 65 ≤ c ≤ 90 ∨ 48 ≤ c ≤ 57 ∨ c = 95 ∨ c = 45)%N
    as Hc.
  { rewrite !orb_true_iff, !andb_true_iff, !N.leb_le, !N.eqb_eq in H. lia. }
  clear H. split.
  - apply not_true_iff_false.
    rewrite !orb_true_iff, !andb_true_iff, !N.leb_le, !N.eqb_eq. lia.
  - change (chr ".") with 46%N. change (chr ",") with 44%N.
    change (chr " ") with 32%N. change (chr "'") with 39%N.
    change (chr "034") with 34%N. lia.
Qed.

Lemma re_sub_disallowed_allowed s :
  Forall (λ c, is_allowed c = true) (re_sub_disallowed s).
Proof.
  apply Forall_forall. intros c Hc.
  apply list_elem_of_In, in_map_iff in Hc as (a & <- & _).
  by destruct (is_allowed a) eqn:E.
Qed.

Lemma sanitize_fixed s :
  Forall (λ c, is_allowed c = true) s → _sanitize_property_name s = s.
Proof.
  intros H. unfold _sanitize_property_name, lit. simpl.
  rewrite (strip_none is_space s); last first.
  { eapply Forall_impl; [exact H|]. intros c Hc.
    by apply allowed_not_special in Hc as (? & _). }
  rewrite strip_none; last first.
  { eapply Forall_impl; [exact H|]. intros c Hc.
    apply allowed_not_special in Hc as (_ & ? & _). by apply bool_decide_eq_false. }
  assert (∀ c, is_allowed c = false → c ∉ s) as Habsent.
  { intros c Hc Hin. rewrite Forall_forall in H. apply H in Hin. congruence. }
  rewrite (str_replace_char_absent (chr ",")) by (by apply Habsent).
  rewrite (str_replace_char_absent (chr " ")) by (by apply Habsent).
  rewrite (str_replace_char_absent (chr "'")) by (by apply Habsent).
  rewrite (str_replace_char_absent (chr "034")) by (by apply Habsent).
  unfold re_sub_disallowed.
  induction H as [|c s Hc _ IH]; cbn [List.map]; [done|].
  rewrite Hc, IH; [done|]. intros c' Hc' Hin. apply (Habsent c' Hc').
  by apply list_elem_of_further.
Qed.

(** X20.  Whatever the name, the sanitized name is made of letters, digits,
    [_] and [-] only, and it is not longer than the name. *)
Theorem sanitize_alphabet (prop : str) :
  Forall (λ c, is_allowed c = true) (_sanitize_property_name prop)
  ∧ length (_sanitize_property_name prop) ≤ length prop.
Proof.
  split; [apply re_sub_disallowed_allowed|].
  unfold _sanitize_property_name, re_sub_disallowed, lit. simpl.
  rewrite length_map.
  etrans; [apply str_replace_char_length; simpl; lia|].
  etrans; [apply str_replace_char_length; simpl; lia|].
  etrans; [apply str_replace_char_length; simpl; lia|].
  etrans; [apply str_replace_char_length; simpl; lia|].
  etrans; [apply strip_length|]. apply strip_length.
Qed.

(** X21.  The names [_sanitize_property_name] leaves as they are are those
    made of letters, digits, [_] and [-] only; so sanitizing twice is
    sanitizing once. *)
Theorem sanitize_fixed_points (prop : str) :
  (_sanitize_property_name prop = prop
   ↔ Forall (λ c, is_allowed c = true) prop)
  ∧ _sanitize_property_name (_sanitize_property_name prop)
    = _sanitize_property_name prop.
Proof.
  split; [split|].
  - intros <-. apply re_sub_disallowed_allowed.
  - apply sanitize_fixed.
  - apply sanitize_fixed, re_sub_disallowed_allowed.
Qed.

(** ** [str.replace] on a suffix *)

Lemma replace_go_skip old new (s1 s2 : str) :
  replace_go old new (length s1) (s1 ++ s2) = replace_go old new 0 s2.
Proof. induction s1 as [|c s1 IH]; simpl; [done|]. exact IH. Qed.

Lemma replace_go_skip_all old new (s : str) :
  replace_go old new (length s) s = [].
Proof.
  pose proof (replace_go_skip old new s []) as H.
  by rewrite app_nil_r in H.
Qed.

Lemma str_replace_whole old : old ≠ [] → str_replace old [] old = [].
Proof.
  destruct old as [|c old]; [done|]. intros _. unfold str_replace. simpl.
  rewrite decide_True by done. simpl. rewrite Nat.sub_0_r.
  apply replace_go_skip_all.
Qed.

(** An [old] without border does not begin inside a string it ends. *)
Lemma unbordered_no_straddle old (q : str) :
  unbordered old = true → q ≠ [] →
  ¬ old `prefix_of` q → ¬ old `prefix_of` q ++ old.
Proof.
  intros Hunb Hq Hnot Hpre.
  destruct (prefix_weak_total old q (q ++ old) Hpre) as [H|[r Hr]];
    [by apply prefix_app_r | done |].
  rewrite Hr in Hpre at 1. apply prefix_app_inv in Hpre.
  assert (r = drop (length q) old) as Hdrop.
  { by rewrite Hr, drop_app_length. }
  assert (1 ≤ length q < length old) as Hlen.
  { split; [destruct q; [done | simpl; lia]|].
    rewrite Hr, length_app. destruct r as [|c r]; [|simpl; lia].
    rewrite app_nil_r in Hr. subst old. by destruct Hnot. }
  unfold unbordered in Hunb. rewrite forallb_forall in Hunb.
  specialize (Hunb (length q)).
  rewrite <- Hdrop in Hunb.
  assert (In (length q) (seq 1 (length old - 1))) as Hin
    by (apply in_seq; lia).
  apply Hunb, negb_true_iff, bool_decide_eq_false in Hin.
  by apply Hin.
Qed.

Lemma contains_cons c (s old : str) :
  contains (c :: s) old = false →
  ¬ old `prefix_of` c :: s ∧ contains s old = false.
Proof.
  simpl. intros [H1 H2]%orb_false_iff. split; [|done].
  by apply bool_decide_eq_false in H1.
Qed.

(** Taking [old] out of a name followed by [old] gives the name back, when
    the name does not hold [old]. *)
Lemma str_replace_suffix old (p : str) :
  old ≠ [] → unbordered old = true → contains p old = false →
  str_replace old [] (p ++ old) = p.
Proof.
  intros Hold Hunb. induction p as [|c p IH]; intros Hp.
  - by apply str_replace_whole.
  - apply contains_cons in Hp as [Hnot Hp].
    unfold str_replace. simpl.
    rewrite decide_False.
    + f_equal. by apply IH.
    + change (c :: p ++ old) with ((c :: p) ++ old).
      by apply unbordered_no_straddle.
Qed.

(** ** The dictionaries *)

Section dict_facts.
Context {V : Type}.
Implicit Types (d : list (str * V)).

Lemma dict_get_set k k' (v : V) d :
  dict_get k (dict_set k' v d)
  = if decide (k' = k) then Some v else dict_get k d.
Proof.
  induction d as [|[k'' v''] d IH]; simpl.
  - done.
  - destruct (decide (k'' = k')) as [->|Hne]; simpl.
    + by destruct (decide (k' = k)).
    + destruct (decide (k'' = k)) as [->|Hne'].
      * by rewrite decide_False by done.
      * done.
Qed.

Lemma dict_get_None k d : k ∉ d.*1 → dict_get k d = None.
Proof.
  induction d as [|[k' v'] d IH]; simpl; [done|].
  intros Hk. apply not_elem_of_cons in Hk as [Hne Hk].
  rewrite decide_False by done. by apply IH.
Qed.

Lemma dict_get_snoc k k' (v : V) d :
  k' ∉ d.*1 →
  dict_get k (d ++ [(k', v)])
  = if decide (k' = k) then Some v else dict_get k d.
Proof.
  intros Hk'. induction d as [|[k'' v''] d IH]; simpl; [done|].
  apply not_elem_of_cons in Hk' as [Hne Hk'].
  destruct (decide (k'' = k)) as [->|Hne'].
  - by rewrite decide_False by done.
  - by apply IH.
Qed.

End dict_facts.

Lemma field_of_set_field {V} (d : list (str * list (str * V)))
    (n f n' f' : str) (v : V) :
  field_of (set_field n f v d) n' f'
  = if decide (n = n' ∧ f = f') then Some v else field_of d n' f'.
Proof.
  unfold field_of, set_field. rewrite dict_get_set.
  destruct (decide (n = n')) as [->|Hn]; simpl.
  - rewrite dict_get_set.
    destruct (decide (f = f')) as [->|Hf].
    + by rewrite decide_True.
    + rewrite decide_False by (by intros [_ ?]).
      by destruct (dict_get n' d).
  - by rewrite decide_False by (by intros [? _]).
Qed.

(** ** The keys *)

Lemma endswith_app p suffix : endswith (p ++ suffix) suffix = true.
Proof. apply bool_decide_eq_true. by exists p. Qed.

Lemma endswith_other p (suffix suffix' : str) :
  ¬ suffix `suffix_of` suffix' → ¬ suffix' `suffix_of` suffix →
  endswith (p ++ suffix') suffix = false.
Proof.
  intros H1 H2. apply bool_decide_eq_false. intros H.
  destruct (suffix_weak_total suffix suffix' (p ++ suffix')); auto.
  by exists p.
Qed.

Lemma verdict_comment_apart :
  ¬ verdict_suffix `suffix_of` comment_suffix
  ∧ ¬ comment_suffix `suffix_of` verdict_suffix.
Proof. split; by apply (bool_decide_unpack _). Qed.

Lemma suffix_keys_differ p q (suffix suffix' : str) :
  endswith (q ++ suffix') suffix = false → p ++ suffix ≠ q ++ suffix'.
Proof.
  intros H Heq. rewrite <- Heq, endswith_app in H. discriminate.
Qed.

Lemma clean_names p :
  clean p = true →
  str_replace verdict_suffix [] (p ++ verdict_suffix) = p
  ∧ str_replace comment_suffix [] (p ++ comment_suffix) = p.
Proof.
  unfold clean. intros [H1 H2]%andb_true_iff.
  apply negb_true_iff in H1, H2.
  split; by apply str_replace_suffix.
Qed.

Lemma extract_policy_data_snoc {V} (evaluation : list (str * V)) key value :
  extract_policy_data (evaluation ++ [(key, value)])
  = let policies_dict := extract_policy_data evaluation in
    if endswith key verdict_suffix then
      set_field (str_replace verdict_suffix [] key) (lit "verdict") value
        policies_dict
    else if endswith key comment_suffix then
      set_field (str_replace comment_suffix [] key) (lit "comment") value
        policies_dict
    else policies_dict.
Proof. unfold extract_policy_data. by rewrite foldl_app. Qed.

(** X22.  Reading back what the schema asked for.  When every key of the
    evaluation is a clean policy name (one that holds neither suffix)
    followed by [_policy_followed_verdict] or [_review_comment], or ends
    with neither, then for every clean policy name the [verdict] that
    [extract_policy_data] files under it is the value of its verdict key,
    and the [comment] the value of its comment key; a field is missing
    exactly when its key is. *)
Theorem extract_policy_data_fields {V} (evaluation : list (str * V))
    (policy_name : str) :
  NoDup evaluation.*1 →
  Forall plain_key evaluation.*1 →
  clean policy_name = true →
  field_of (extract_policy_data evaluation) policy_name (lit "verdict")
  = dict_get (policy_name ++ verdict_suffix) evaluation
  ∧ field_of (extract_policy_data evaluation) policy_name (lit "comment")
    = dict_get (policy_name ++ comment_suffix) evaluation.
Proof.
  intros Hnodup Hkeys Hclean.
  destruct verdict_comment_apart as [Hvc Hcv].
  induction evaluation as [|[key value] evaluation IH] using rev_ind;
    [done|].
  rewrite fmap_app in Hnodup, Hkeys. simpl in Hnodup, Hkeys.
  apply NoDup_app in Hnodup as (Hnodup & Hfresh & _).
  apply Forall_app in Hkeys as [Hkeys Hkey].
  apply Forall_inv in Hkey.
  specialize (IH Hnodup Hkeys) as [IHv IHc].
  assert (key ∉ evaluation.*1) as Hkey_fresh.
  { intros Hin. apply (Hfresh _ Hin). apply list_elem_of_here. }
  rewrite extract_policy_data_snoc, !dict_get_snoc by done. simpl.
  unfold plain_key in Hkey.
  destruct Hkey as [(q & Hq & [-> | ->]) | [Hv Hc]].
  - rewrite endswith_app.
    destruct (clean_names q Hq) as [-> _].
    rewrite !field_of_set_field.
    destruct (decide (q = policy_name)) as [->|Hne].
    + rewrite decide_True, decide_True by done.
      rewrite decide_False by (by intros [_ ?]).
      rewrite decide_False; [done|].
      apply not_eq_sym, suffix_keys_differ, endswith_other; auto.
    + rewrite decide_False by (by intros [? _]).
      rewrite decide_False by (by intros ?%(inj (.++ verdict_suffix))).
      rewrite decide_False by (by intros [? _]).
      rewrite decide_False; [done|].
      apply not_eq_sym, suffix_keys_differ, endswith_other; auto.
  - rewrite (endswith_other q verdict_suffix comment_suffix) by done.
    rewrite endswith_app.
    destruct (clean_names q Hq) as [_ ->].
    rewrite !field_of_set_field.
    destruct (decide (q = policy_name)) as [->|Hne].
    + rewrite decide_False by (by intros [_ ?]).
      rewrite decide_False
        by (apply not_eq_sym, suffix_keys_differ, endswith_other; auto).
      by rewrite decide_True, decide_True by done.
    + rewrite decide_False by (by intros [? _]).
      rewrite decide_False
        by (apply not_eq_sym, suffix_keys_differ, endswith_other; auto).
      rewrite decide_False by (by intros [? _]).
      by rewrite decide_False by (by intros ?%(inj (.++ comment_suffix))).
  - rewrite Hv, Hc.
    rewrite decide_False; last first.
    { intros ->. by rewrite endswith_app in Hv. }
    rewrite decide_False; [done|].
    intros ->. by rewrite endswith_app in Hc.
Qed.

Lemma extract_policy_data_fields_example :
  field_of (extract_policy_data example_evaluation) (lit "A") (lit "verdict")
  = dict_get (lit "A" ++ verdict_suffix) example_evaluation
  ∧ field_of (extract_policy_data example_evaluation) (lit "A") (lit "comment")
    = dict_get (lit "A" ++ comment_suffix) example_evaluation.
Proof.
  apply (extract_policy_data_fields example_evaluation (lit "A")).
  - apply (bool_decide_unpack _). vm_compute. exact I.
  - repeat (apply List.Forall_cons; [|]); [| | | | |apply List.Forall_nil].
    + left. exists (lit "A"). split; [vm_compute; reflexivity|].
      right. reflexivity.
    + left. exists (lit "B"). split; [vm_compute; reflexivity|].
      left. reflexivity.
    + left. exists (lit "A"). split; [vm_compute; reflexivity|].
      left. reflexivity.
    + right. split; vm_compute; reflexivity.
    + left. exists (lit "B"). split; [vm_compute; reflexivity|].
      right. reflexivity.
  - vm_compute. reflexivity.
Defined.

(** The fields of policy [A] in the example. *)
Lemma extract_policy_data_example :
  field_of (extract_policy_data example_evaluation) (lit "A") (lit "verdict")
  = Some "3"%string
  ∧ field_of (extract_policy_data example_evaluation) (lit "A") (lit "comment")
    = Some "good"%string
  ∧ (extract_policy_data example_evaluation).*1 = [lit "A"; lit "B"].
Proof. vm_compute. by split_and!. Qed.

End PoliciesFacts.

(** * Properties of the report *)

Module ReportFacts.
Import Report.
Local Open Scope nat_scope.

Lemma string_app_length (s1 s2 : string) :
  String.length (s1 +:+ s2) = String.length s1 + String.length s2.
Proof. induction s1 as [|a s1 IH]; simpl; [done|]. by rewrite IH. Qed.

Lemma string_app_assoc (s1 s2 s3 : string) :
  (s1 +:+ s2) +:+ s3 = s1 +:+ (s2 +:+ s3).
Proof.
  induction s1 as [|a s1 IH]; [done|].
  change (String a ((s1 +:+ s2) +:+ s3) = String a (s1 +:+ (s2 +:+ s3))).
  by rewrite IH.
Qed.

(** The length of a join: every piece after the first comes with one
    separator. *)
Lemma concat_length sep (x : string) (l : list string) :
  String.length (String.concat sep (x :: l))
  = String.length x
    + foldr (λ y n, String.length sep + String.length y + n) 0 l.
Proof.
  revert x. induction l as [|y l IH]; intros x.
  - simpl. lia.
  - change (String.concat sep (x :: y :: l))
      with (x +:+ sep +:+ String.concat sep (y :: l)).
    rewrite !string_app_length, IH. simpl. lia.
Qed.

Lemma concat_app sep (x : string) (l : list string) (y : string)
    (l' : list string) :
  String.concat sep ((x :: l) ++ y :: l')
  = String.concat sep (x :: l) +:+ sep +:+ String.concat sep (y :: l').
Proof.
  revert x. induction l as [|z l IH]; intros x.
  - done.
  - change (String.concat sep ((x :: z :: l) ++ y :: l'))
      with (x +:+ sep +:+ String.concat sep ((z :: l) ++ y :: l')).
    change (String.concat sep (x :: z :: l))
      with (x +:+ sep +:+ String.concat sep (z :: l)).
    by rewrite IH, !string_app_assoc.
Qed.

Lemma foldl_extend {A B} (f : A → list B) (r : list B) (l : list A) :
  foldl (λ r x, r ++ f x) r l = r ++ flat_map f l.
Proof.
  revert r. induction l as [|x l IH]; intros r; simpl.
  - by rewrite app_nil_r.
  - by rewrite IH, <- app_assoc.
Qed.

Section format_facts.
Variable str_of_path : Ranker.Path → string.

(** X23.  The size of the report: 38 characters of frame around the
    project name and the directory tree, and for each file 91 characters
    around its path and its content. *)
Theorem format_length (self : ReportFormatter) :
  String.length (format str_of_path self)
  = 38 + String.length (project_name self)
    + String.length (directory_tree self)
    + foldr
        (λ item n,
           91 + String.length (str_of_path item.1) + String.length item.2 + n)
        0 (file_contents self).
Proof.
  unfold format. rewrite foldl_extend.
  cbn [app]. rewrite concat_length. cbn [foldr].
  rewrite !string_app_length.
  assert (∀ items,
            foldr (λ y n, String.length newline + String.length y + n) 0
              (flat_map (file_section str_of_path) items)
            = foldr
                (λ item n,
                   91 + String.length (str_of_path item.1)
                   + String.length item.2 + n)
                0 items) as ->.
  { induction items as [|[p c] items IH]; [done|].
    cbn [flat_map file_section app foldr fst snd]. rewrite IH.
    rewrite !string_app_length.
    change (String.length newline) with 1.
    change (String.length "File: ") with 6.
    change (String.length (str_mul "-" 40)) with 40.
    lia. }
  change (String.length newline) with 1.
  change (String.length "Directory Structure:") with 20.
  change (String.length "File Contents:") with 14.
  lia.
Qed.

(** X24.  More files only add to the report: the report of [file_contents]
    followed by other files is the report of [file_contents], a line feed,
    and the joined sections of the other files. *)
Theorem format_extends name tree items item more :
  format str_of_path (MkReportFormatter name tree (items ++ item :: more))
  = format str_of_path (MkReportFormatter name tree items)
    +:+ newline
    +:+ String.concat newline
          (flat_map (file_section str_of_path) (item :: more)).
Proof.
  unfold format. cbn [project_name directory_tree file_contents].
  rewrite !foldl_extend, flat_map_app.
  destruct item as [p c]. cbn [flat_map file_section app].
  exact (concat_app newline "Directory Structure:"
           (name :: tree :: (newline +:+ "File Contents:")
              :: flat_map (file_section str_of_path) items) _ _).
Qed.

End format_facts.

End ReportFacts.
